(** * Coauthorship graph construction and Erdos-number queries

    A shallow embedding of [erdos1_plainpython.py] and of its typed
    restatements [erdos2_typeddict.py] and [erdos3_pydantic.py]: the
    functions [attach_authors], [build_coauthorship_matrix] and [erdos];
    of the builder of [erdos4_dataframe.py] and [erdos5_pandera.py]
    (module [DataFrame]); and of the library calls they make: SciPy's
    [coo_matrix], [tocsr] and [csgraph.dijkstra], NumPy indexing, and the
    pandas [merge] and [groupby].

    Conventions.
    - Python integers are [Z]; [np.int8] values are [Z] with the wrap-around
      written out ([int8]).  Ids are taken to fit SciPy's index type: the
      conversion of an id beyond it raises in NumPy and is not embedded, and
      a statement that an id of any size succeeds, or fails in a given way,
      carries [int32_range] as a hypothesis.
    - The search is embedded for what [csgraph.dijkstra] is specified for,
      non-negative weights.  What does not depend on the weights (the range
      check of the source, the wrap-around of negative ids, a source without
      an outgoing edge) is stated without them; every other statement about
      the search carries [non_negative] or a stronger hypothesis, or
      evaluates the search on a matrix that meets it.
    - A raised exception is a value of [exn]; a function that may raise
      returns [result].  A [ValueError] carries the place that raises it
      rather than its message text.
    - A sparse matrix in CSR format is its shape and the finite map of its
      stored positions.
    - [np.inf] in a distance row is [None]; a finite distance is [Some d].
      The distances are sums of [int8] weights held in [float64], exact
      below 2^53, and are modelled in [Z].

    The file has three parts: the program, the definitions the statements
    use, and the facts, ending with the claims C1 to C10 and the further
    properties. *)

From stdpp Require Import gmap strings list fin_maps pretty sorting.
From Stdlib Require Import ZArith Lia.

Local Open Scope Z_scope.

(** ** Exceptions *)

Inductive value_error : Type :=
  | NoPath              (* erdos: "No path between the authors exists." *)
  | ZeroSizedIndex      (* coo_matrix: cannot infer dimensions from zero sized index arrays *)
  | NegativeIndex       (* coo_matrix: negative row or column index *)
  | NotSquare           (* csgraph.validate_graph: graph must be shape (N, N) *)
  | IndicesOutOfRange.  (* csgraph.dijkstra: indices out of range 0...N *)

Inductive exn : Type :=
  | KeyError (key : string)
  | ValueError (site : value_error)
  | IndexError.

Inductive result (A : Type) : Type :=
  | Ok (a : A)
  | Raise (e : exn).
Arguments Ok {A} a.
Arguments Raise {A} e.

(** Sequencing: an exception aborts what follows ([x ← r; k]). *)
#[global] Instance result_bind : MBind result := λ A B k r,
  match r with
  | Ok a => k a
  | Raise e => Raise e
  end.

(** ** Records *)

Record Article : Type := {
  doi : string;
  title : string;
  publication_date : Z
}.

Record Author : Type := {
  id : Z;
  orcid : string;
  last_name : string;
  given_names : string
}.

Record Authorship : Type := {
  author_orcid : string;
  article_doi : string
}.

(** [{"authors": [], **article}]: the article's fields and the attached
    authors. *)
Record FatArticle : Type := {
  fat_doi : string;
  fat_title : string;
  fat_publication_date : Z;
  authors : list Author
}.

(** ** attach_authors *)

(** [authorships_by_doi = defaultdict(list)], filled in input order. *)
Definition authorships_by_doi (authorships : list Authorship)
    : gmap string (list Authorship) :=
  foldl (λ m authorship,
           let doi := article_doi authorship in
           <[doi := default [] (m !! doi) ++ [authorship]]> m)
        ∅ authorships.

(** [{author["orcid"]: author for author in authors}]: a later author with
    the same orcid replaces an earlier one. *)
Definition author_by_orcid (authors : list Author) : gmap string Author :=
  foldl (λ m author, <[orcid author := author]> m) ∅ authors.

(** The inner loop: [author_by_orcid[...]] raises [KeyError] on a missing
    orcid and aborts the whole call. *)
Fixpoint attach_loop (by_orcid : gmap string Author)
    (links : list Authorship) (attached : list Author) : result (list Author) :=
  match links with
  | [] => Ok attached
  | authorship :: rest =>
      match by_orcid !! author_orcid authorship with
      | None => Raise (KeyError (author_orcid authorship))
      | Some author => attach_loop by_orcid rest (attached ++ [author])
      end
  end.

Fixpoint attach_articles (by_doi : gmap string (list Authorship))
    (by_orcid : gmap string Author) (articles : list Article)
    (fat_articles : list FatArticle) : result (list FatArticle) :=
  match articles with
  | [] => Ok fat_articles
  | article :: rest =>
      attached ← attach_loop by_orcid (default [] (by_doi !! doi article)) [];
      attach_articles by_doi by_orcid rest
        (fat_articles ++ [{| fat_doi := doi article;
                             fat_title := title article;
                             fat_publication_date := publication_date article;
                             authors := attached |}])
  end.

Definition attach_authors (articles : list Article) (authors : list Author)
    (authorships : list Authorship) : result (list FatArticle) :=
  attach_articles (authorships_by_doi authorships) (author_by_orcid authors)
    articles [].

(** ** SciPy sparse matrices with dtype int8 *)

(** Two's-complement 8-bit wrap-around. *)
Definition int8 (z : Z) : Z := (z + 128) mod 256 - 128.

(** COO format: the three parallel arrays and the shape. *)
Record coo_matrix_t : Type := {
  coo_shape : Z * Z;
  coo_row : list Z;
  coo_col : list Z;
  coo_data : list Z
}.

(** CSR format after [sum_duplicates]: the shape and one stored value per
    stored position.  A stored value may be 0 (an explicit zero). *)
Record csr_matrix : Type := {
  shape : Z * Z;
  stored : gmap (Z * Z) Z
}.

(** [np.max] and [np.min] of a non-empty index array. *)
Definition list_max (l : list Z) : Z := foldr Z.max (hd 0 l) l.
Definition list_min (l : list Z) : Z := foldr Z.min (hd 0 l) l.

(** [sp.coo_matrix((data, (row, col)), dtype=np.int8)] without a shape:
    the shape is one more than the largest index of each axis.  The index
    lists are taken to convert to SciPy's index type; the errors NumPy raises
    for a Python integer beyond it are not embedded. *)
Definition coo_matrix (data row col : list Z) : result coo_matrix_t :=
  match row, col with
  | [], _ | _, [] => Raise (ValueError ZeroSizedIndex)
  | _, _ =>
      if (list_min row <? 0) || (list_min col <? 0)
      then Raise (ValueError NegativeIndex)
      else Ok {| coo_shape := (list_max row + 1, list_max col + 1);
                 coo_row := row; coo_col := col;
                 coo_data := int8 <$> data |}
  end.

(** Adding one COO entry to the CSR accumulation, in int8 arithmetic. *)
Definition csr_add (m : gmap (Z * Z) Z) (e : Z * Z * Z) : gmap (Z * Z) Z :=
  let '(i, j, v) := e in
  <[(i, j) := int8 (default 0 (m !! (i, j)) + v)]> m.

(** The entries of a COO matrix, one per position of its arrays. *)
Definition coo_entries (c : coo_matrix_t) : list (Z * Z * Z) :=
  zip (zip (coo_row c) (coo_col c)) (coo_data c).

(** [coo.tocsr()]: entries at the same position are summed. *)
Definition tocsr (c : coo_matrix_t) : csr_matrix :=
  {| shape := coo_shape c;
     stored := foldl csr_add ∅ (coo_entries c) |}.

(** NumPy/SciPy index normalisation along an axis of length [n]. *)
Definition norm_index (n i : Z) : result Z :=
  if (0 <=? i) && (i <? n) then Ok i
  else if (- n <=? i) && (i <? 0) then Ok (i + n)
  else Raise IndexError.

(** [m[i, j]] on a CSR matrix. *)
Definition getitem (m : csr_matrix) (i j : Z) : result Z :=
  i' ← norm_index (shape m).1 i;
  j' ← norm_index (shape m).2 j;
  Ok (default 0 (stored m !! (i', j'))).

(** ** build_coauthorship_matrix *)

(** The three lists the loops fill. *)
Record idx_lists : Type := {
  row_idx : list Z;
  col_idx : list Z;
  distance : list Z
}.

(** The body of the innermost loop, and the three loops. *)
Definition coauthor_step (author : Author) (st : idx_lists) (coauthor : Author)
    : idx_lists :=
  if String.eqb (orcid author) (orcid coauthor)
  then st  (* an author is not a co-author of themselves *)
  else {| row_idx := row_idx st ++ [id author];
          col_idx := col_idx st ++ [id coauthor];
          distance := distance st ++ [1] |}.

Definition author_step (article : FatArticle) (st : idx_lists) (author : Author)
    : idx_lists :=
  foldl (coauthor_step author) st (authors article).

Definition article_step (st : idx_lists) (article : FatArticle) : idx_lists :=
  foldl (author_step article) st (authors article).

Definition collect_pairs (fat_articles : list FatArticle) : idx_lists :=
  foldl article_step {| row_idx := []; col_idx := []; distance := [] |}
    fat_articles.

Definition build_coauthorship_matrix (fat_articles : list FatArticle)
    : result csr_matrix :=
  let st := collect_pairs fat_articles in
  coauthorship ← coo_matrix (distance st) (row_idx st) (col_idx st);
  Ok (tocsr coauthorship).

(** ** The DataFrame variants *)

(** [erdos4_dataframe.py] and [erdos5_pandera.py] build the matrix from the
    author and authorship frames.  A frame is the list of its rows; a row of
    the merged frame is a link together with the author record it matched. *)
Module DataFrame.

(** [authorships.merge(authors, left_on="author_orcid", right_on="orcid")],
    an inner join: a link gives one row per author record with its orcid,
    and no row when there is none.  Both frames have their columns: the
    KeyError of pandas for a frame without the key column (the frame of an
    empty file) is not embedded. *)
Definition merge (authorships : list Authorship) (authors : list Author)
    : list (Authorship * Author) :=
  authorship ← authorships;
  author ← filter (λ a, orcid a = author_orcid authorship) authors;
  [(authorship, author)].

(** [.groupby("article_doi")]: one group per doi, in ascending order of the
    doi, each with its rows in frame order. *)
Definition groupby (rows : list (Authorship * Author))
    : list (string * list (Authorship * Author)) :=
  (λ key, (key, filter (λ r, article_doi r.1 = key) rows))
  <$> merge_sort (λ x y, String.leb x y)
                 (remove_dups ((λ r, article_doi r.1) <$> rows)).

(** The loops over [article.iterrows()]; the columns read are the author's
    [orcid] and [id]. *)
Definition group_step (st : idx_lists) (article : list (Authorship * Author))
    : idx_lists :=
  foldl (λ st author,
           foldl (λ st coauthor, coauthor_step author.2 st coauthor.2)
                 st article)
        st article.

Definition build_coauthorship_matrix (authors : list Author)
    (authorships : list Authorship) : result csr_matrix :=
  let article_groups := groupby (merge authorships authors) in
  let st := foldl (λ st group, group_step st group.2)
                  {| row_idx := []; col_idx := []; distance := [] |}
                  article_groups in
  coauthorship ← coo_matrix (distance st) (row_idx st) (col_idx st);
  Ok (tocsr coauthorship).

End DataFrame.

(** ** scipy.sparse.csgraph.dijkstra *)

(** Row [v] of a CSR matrix: its stored (column, weight) pairs.  Every stored
    position is an edge of the graph, an explicit zero included. *)
Definition row (g : csr_matrix) (v : Z) : list (Z * Z) :=
  omap (λ e : Z * Z * Z, if e.1.1 =? v then Some (e.1.2, e.2) else None)
       (map_to_list (stored g)).

(** The state of one single-source run.  A node absent from both maps is
    NOT_IN_HEAP; [heap] holds the IN_HEAP nodes with their tentative value;
    [scanned] holds the SCANNED nodes with the value written to the distance
    row when they were removed from the heap. *)
Record dijkstra_state : Type := {
  scanned : gmap Z Z;
  heap : gmap Z Z
}.

(** [_dijkstra_scan_heap], one outgoing edge of the node just scanned.  A
    scanned node is left alone: with non-negative weights no edge can lower
    a scanned value, so this is every version of the scan; with a negative
    weight what the library does is outside its contract and not embedded. *)
Definition relax (v_val : Z) (st : dijkstra_state) (e : Z * Z) : dijkstra_state :=
  let '(j_current, dist) := e in
  match scanned st !! j_current with
  | Some _ => st
  | None =>
      let next_val := v_val + dist in
      match heap st !! j_current with
      | None =>
          {| scanned := scanned st; heap := <[j_current := next_val]> (heap st) |}
      | Some current_val =>
          if current_val >? next_val
          then {| scanned := scanned st;
                  heap := <[j_current := next_val]> (heap st) |}
          else st
      end
  end.

(** An entry of least value among [l]. *)
Definition min_entry (l : list (Z * Z)) : option (Z * Z) :=
  foldr (λ e acc,
           match acc with
           | None => Some e
           | Some b => if e.2 <=? b.2 then Some e else Some b
           end) None l.

(** [remove_min]: a node of least tentative value.  Which one of several
    nodes of equal value comes first is the heap's business; with
    non-negative weights the distances do not depend on it (with a negative
    weight they do, and the order chosen here is not the heap's). *)
Definition remove_min (h : gmap Z Z) : option (Z * Z) :=
  min_entry (map_to_list h).

(** One turn of [while heap.min_node]. *)
Definition dijkstra_step (g : csr_matrix) (st : dijkstra_state) : dijkstra_state :=
  match remove_min (heap st) with
  | None => st
  | Some (v, v_val) =>
      foldl (relax v_val)
            {| scanned := <[v := v_val]> (scanned st);
               heap := delete v (heap st) |}
            (row g v)
  end.

(** Before the loop: the source is in the heap with value 0. *)
Definition dijkstra_init (j_source : Z) : dijkstra_state :=
  {| scanned := ∅; heap := {[ j_source := 0 ]} |}.

(** The loop, run for as many turns as the graph has nodes: every turn with
    a non-empty heap scans a new node (see [dijkstra_run_heap_empty]), so
    for non-negative weights this is the finished [while] loop.  On a cycle
    of negative total weight the library's loop need not end, and the run
    below is not what it does. *)
Definition dijkstra_run (g : csr_matrix) (j_source : Z) : dijkstra_state :=
  Nat.iter (Z.to_nat (shape g).1) (dijkstra_step g) (dijkstra_init j_source).

(** [dijkstra(csgraph, directed=True, indices=[index])[0]]: the row of
    distances from [index]; [None] is [inf].  [index] is taken to be an
    int32 value, the type the library converts it to before the range
    check. *)
Definition dijkstra (g : csr_matrix) (index : Z) : result (list (option Z)) :=
  let N := (shape g).1 in
  if negb (N =? (shape g).2) then Raise (ValueError NotSquare)
  else
    let j_source := if index <? 0 then index + N else index in
    if (j_source <? 0) || (N <=? j_source)
    then Raise (ValueError IndicesOutOfRange)
    else Ok ((λ k, scanned (dijkstra_run g j_source) !! k) <$> seqZ 0 N).

(** [a[i]] on a one-dimensional NumPy array. *)
Definition np_getitem {A : Type} (a : list A) (i : Z) : result A :=
  i' ← norm_index (Z.of_nat (length a)) i;
  match a !! Z.to_nat i' with
  | Some x => Ok x
  | None => Raise IndexError
  end.

(** ** erdos *)

Definition erdos (coauthorship : csr_matrix) (id_a id_b : Z) : result Z :=
  dist_row ← dijkstra coauthorship id_a;
  distance ← np_getitem dist_row id_b;
  match distance with
  | None => Raise (ValueError NoPath)   (* np.isinf(distance) *)
  | Some d => Ok d                      (* int(distance) *)
  end.

(** The whole pipeline of the main program. *)
Definition pipeline (articles : list Article) (authors : list Author)
    (authorships : list Authorship) (id_a id_b : Z) : result Z :=
  fat_articles ← attach_authors articles authors authorships;
  coauthorship ← build_coauthorship_matrix fat_articles;
  erdos coauthorship id_a id_b.

(** ** The loaders of erdos2_typeddict.py *)

(** [load_authors], [load_articles] and [load_authorship] read a file with
    [_load_ndjson] and rebuild every decoded object as a TypedDict.  The
    embedding starts from [data], the list of dicts that [_load_ndjson]
    returns; the values of the dicts are what [json.loads] decoded, of any
    type [V], since a TypedDict checks nothing at run time. *)
Module TypedDict.
Section loaders.
Variable V : Type.

(** [item[key]]. *)
Definition dict_getitem (item : gmap string V) (key : string) : result V :=
  match item !! key with
  | Some v => Ok v
  | None => Raise (KeyError key)
  end.

(** [Author(id=item["id"], orcid=item["orcid"], last_name=item["last_name"],
    given_names=item["given_names"])]: the arguments are evaluated from left
    to right, and the TypedDict is a dict with these four keys. *)
Definition make_Author (item : gmap string V) : result (gmap string V) :=
  v_id ← dict_getitem item "id";
  v_orcid ← dict_getitem item "orcid";
  v_last_name ← dict_getitem item "last_name";
  v_given_names ← dict_getitem item "given_names";
  Ok (<["given_names" := v_given_names]>
        (<["last_name" := v_last_name]>
           (<["orcid" := v_orcid]> (<["id" := v_id]> ∅)))).

(** [Article(title=item["title"], doi=item["doi"],
    publication_date=item["publication_date"])]. *)
Definition make_Article (item : gmap string V) : result (gmap string V) :=
  v_title ← dict_getitem item "title";
  v_doi ← dict_getitem item "doi";
  v_publication_date ← dict_getitem item "publication_date";
  Ok (<["publication_date" := v_publication_date]>
        (<["doi" := v_doi]> (<["title" := v_title]> ∅))).

(** [Authorship(author_orcid=item["author_orcid"],
    article_doi=item["article_doi"])]. *)
Definition make_Authorship (item : gmap string V) : result (gmap string V) :=
  v_author_orcid ← dict_getitem item "author_orcid";
  v_article_doi ← dict_getitem item "article_doi";
  Ok (<["article_doi" := v_article_doi]>
        (<["author_orcid" := v_author_orcid]> ∅)).

(** [[f(item) for item in data]]: the items in order; the first exception
    ends the comprehension. *)
Fixpoint comprehension (f : gmap string V → result (gmap string V))
    (data : list (gmap string V)) : result (list (gmap string V)) :=
  match data with
  | [] => Ok []
  | item :: rest =>
      x ← f item;
      xs ← comprehension f rest;
      Ok (x :: xs)
  end.

Definition load_authors (data : list (gmap string V))
    : result (list (gmap string V)) :=
  comprehension make_Author data.

Definition load_articles (data : list (gmap string V))
    : result (list (gmap string V)) :=
  comprehension make_Article data.

Definition load_authorship (data : list (gmap string V))
    : result (list (gmap string V)) :=
  comprehension make_Authorship data.

End loaders.
End TypedDict.

(** * Definitions used in the statements *)

(** ** The appended index pairs *)

(** The ordered (author id, coauthor id) pairs the loops of
    [build_coauthorship_matrix] append, in order. *)
Definition pairs_of_author (l : list Author) (author : Author) : list (Z * Z) :=
  coauthor ← l;
  if String.eqb (orcid author) (orcid coauthor) then []
  else [(id author, id coauthor)].

(** The pairs appended for one article, and for all of them. *)
Definition pairs_of_article (article : FatArticle) : list (Z * Z) :=
  authors article ≫= pairs_of_author (authors article).

Definition coauthor_pairs (fat_articles : list FatArticle) : list (Z * Z) :=
  fat_articles ≫= pairs_of_article.

(** How many times an ordered pair occurs among the appended entries. *)
Definition occurrences (k : Z * Z) (l : list (Z * Z)) : nat :=
  length (filter (λ p, p = k) l).

(** How many times the loops append the ordered id pair (i, j). *)
Definition pair_count (fat_articles : list FatArticle) (i j : Z) : Z :=
  let st := collect_pairs fat_articles in
  Z.of_nat (occurrences (i, j) (zip (row_idx st) (col_idx st))).

(** The three lists after appending the pairs [ps], each with the value 1. *)
Definition push_pairs (st : idx_lists) (ps : list (Z * Z)) : idx_lists :=
  {| row_idx := row_idx st ++ ps.*1;
     col_idx := col_idx st ++ ps.*2;
     distance := distance st ++ ((λ _, 1) <$> ps) |}.

(** The contribution of the ordered author pair (author, coauthor) to the
    count of the id pair [k]. *)
Definition pair_hit (k : Z * Z) (author coauthor : Author) : nat :=
  if String.eqb (orcid author) (orcid coauthor) then 0
  else if decide ((id author, id coauthor) = k) then 1 else 0.

(** ** The attached authors *)

(** The attached authors of all articles. *)
Definition all_authors (fat_articles : list FatArticle) : list Author :=
  fat_articles ≫= authors.

(** Each author has an orcid of their own. *)
Definition distinct_orcids (fat_articles : list FatArticle) : Prop :=
  ∀ a c, a ∈ all_authors fat_articles → c ∈ all_authors fat_articles →
         orcid a = orcid c → a = c.

(** Each author has an id of their own: two attached authors with the same
    id have the same orcid. *)
Definition distinct_ids (fat_articles : list FatArticle) : Prop :=
  ∀ a c, a ∈ all_authors fat_articles → c ∈ all_authors fat_articles →
         id a = id c → orcid a = orcid c.

(** The authorship links of the author with id [i] on an article: one,
    unless a link is duplicated. *)
Definition author_links (article : FatArticle) (i : Z) : nat :=
  length (filter (λ a, id a = i) (authors article)).

(** The number of joint articles in the words of the specification: the
    articles authored jointly by i and j, summed over the articles, an
    article counting once for each authorship link of i and of j on it (so a
    duplicate link counts again). *)
Definition joint_count (fat_articles : list FatArticle) (i j : Z) : Z :=
  Z.of_nat (sum_list_with
              (λ article, author_links article i * author_links article j)%nat
              fat_articles).

(** An orcid belongs to one id. *)
Definition orcid_determines_id (fat_articles : list FatArticle) : Prop :=
  ∀ a c, a ∈ all_authors fat_articles → c ∈ all_authors fat_articles →
         orcid a = orcid c → id a = id c.

(** ** Graphs and paths *)

(** The nodes of a graph are the indices of its rows. *)
Definition is_node (g : csr_matrix) (u : Z) : Prop := 0 ≤ u < (shape g).1.

(** A stored position (u, v) with value w is an edge u → v of cost w. *)
Definition edge (g : csr_matrix) (u v w : Z) : Prop :=
  stored g !! (u, v) = Some w.

(** [path g a b c]: a directed path from node a to b of total cost c. *)
Inductive path (g : csr_matrix) (a : Z) : Z → Z → Prop :=
  | path_here : is_node g a → path g a a 0
  | path_step u v c w : path g a u c → edge g u v w → path g a v (c + w).

(** A square matrix whose stored positions lie within its shape. *)
Definition well_formed (g : csr_matrix) : Prop :=
  (shape g).1 = (shape g).2 ∧
  map_Forall (λ k _, (0 ≤ k.1 < (shape g).1) ∧ (0 ≤ k.2 < (shape g).1))
             (stored g).

(** No stored weight is negative. *)
Definition non_negative (g : csr_matrix) : Prop :=
  map_Forall (λ _ w, 0 ≤ w) (stored g).

(** ** States of the search *)

(** The node [v] has the value [d], final or tentative. *)
Definition known (st : dijkstra_state) (v d : Z) : Prop :=
  scanned st !! v = Some d ∨ heap st !! v = Some d.

(** The state after [v] left the heap with value [t], before its edges are
    scanned. *)
Definition popped (st : dijkstra_state) (v t : Z) : dijkstra_state :=
  {| scanned := <[v := t]> (scanned st); heap := delete v (heap st) |}.

(** No node is both scanned and in the heap; this needs nothing of the
    weights. *)
Definition disjoint_state (st : dijkstra_state) : Prop :=
  ∀ v, scanned st !! v = None ∨ heap st !! v = None.

(** The invariant of the loop of a run from [s] over non-negative weights. *)
Record dijkstra_inv (g : csr_matrix) (s : Z) (st : dijkstra_state) : Prop := {
  inv_disjoint : disjoint_state st;
  inv_source : ∃ d, known st s d ∧ d ≤ 0;
  inv_path : ∀ v d, known st v d → path g s v d;
  inv_closed : ∀ u du v w,
    scanned st !! u = Some du → edge g u v w →
    ∃ dv, known st v dv ∧ dv ≤ du + w;
  inv_order : ∀ u du v dv,
    scanned st !! u = Some du → heap st !! v = Some dv → du ≤ dv
}.

(** Every node with a value is a node of the graph. *)
Definition nodes_in_range (g : csr_matrix) (st : dijkstra_state) : Prop :=
  ∀ v d, known st v d → is_node g v.

(** ** Links and lookups *)

(** The authors the inner loop attaches when nothing is missing. *)
Definition looked_up (by_orcid : gmap string Author) (links : list Authorship)
    : list Author :=
  omap (λ l, by_orcid !! author_orcid l) links.

(** The fat article built for [article] when nothing is missing. *)
Definition fat_article_of (by_doi : gmap string (list Authorship))
    (by_orcid : gmap string Author) (article : Article) : FatArticle :=
  {| fat_doi := doi article;
     fat_title := title article;
     fat_publication_date := publication_date article;
     authors := looked_up by_orcid (default [] (by_doi !! doi article)) |}.

(** The groups of the merged frame as fat articles: the doi of the group and
    the authors of its rows (the frames carry no title or date; the builder
    reads neither). *)
Definition fat_articles_of_frames (author_list : list Author)
    (authorships : list Authorship) : list FatArticle :=
  (λ group : string * list (Authorship * Author),
     {| fat_doi := group.1; fat_title := ""; fat_publication_date := 0;
        authors := group.2.*2 |})
  <$> DataFrame.groupby (DataFrame.merge authorships author_list).

(** A link is listed if its doi is the doi of one of the articles. *)
Definition listed (articles : list Article) (l : Authorship) : Prop :=
  ∃ article, article ∈ articles ∧ article_doi l = doi article.

(** A link's author is unknown if no author record has its orcid. *)
Definition unknown_author (authors : list Author) (l : Authorship) : Prop :=
  ∀ a, a ∈ authors → orcid a ≠ author_orcid l.

(** ** Example inputs *)

Definition author_A : Author :=
  {| id := 0; orcid := "0000-0000-0000-000A"; last_name := "A"; given_names := "" |}.

Definition author_B : Author :=
  {| id := 1; orcid := "0000-0000-0000-000B"; last_name := "B"; given_names := "" |}.

Definition author_C : Author :=
  {| id := 2; orcid := "0000-0000-0000-000C"; last_name := "C"; given_names := "" |}.

Definition author_D : Author :=
  {| id := 3; orcid := "0000-0000-0000-000D"; last_name := "D"; given_names := "" |}.

Definition four_authors : list Author := [author_A; author_B; author_C; author_D].

Definition article_of (d : string) : Article :=
  {| doi := d; title := d; publication_date := 2025 |}.

Definition link (a : Author) (d : string) : Authorship :=
  {| author_orcid := orcid a; article_doi := d |}.

Definition fat_of (d : string) (l : list Author) : FatArticle :=
  {| fat_doi := d; fat_title := d; fat_publication_date := 2025; authors := l |}.

(** Article X by A and B, article Y by B and C; D is on no article. *)
Definition chain_articles : list Article := [article_of "X"; article_of "Y"].

Definition chain_links : list Authorship :=
  [link author_A "X"; link author_B "X"; link author_B "Y"; link author_C "Y"].

Definition chain_fat : list FatArticle :=
  [fat_of "X" [author_A; author_B]; fat_of "Y" [author_B; author_C]].

Definition chain_graph : csr_matrix :=
  {| shape := (3, 3);
     stored := list_to_map [((0, 1), 1); ((1, 0), 1); ((1, 2), 1); ((2, 1), 1)] |}.

(** [n] articles, each by A and B. *)
Definition joint_fat (n : nat) : list FatArticle :=
  (λ k, fat_of ("10.1000/" +:+ pretty k) [author_A; author_B]) <$> seq 0 n.

Definition joint_articles (n : nat) : list Article :=
  (λ k, article_of ("10.1000/" +:+ pretty k)) <$> seq 0 n.

Definition joint_links (n : nat) : list Authorship :=
  seq 0 n ≫= λ k, [link author_A ("10.1000/" +:+ pretty k);
                    link author_B ("10.1000/" +:+ pretty k)].

(** The matrix of the two authors 0 and 1 with the weight [w] between them. *)
Definition joint_graph (w : Z) : csr_matrix :=
  {| shape := (2, 2); stored := list_to_map [((0, 1), w); ((1, 0), w)] |}.

(** A link whose orcid no author has and whose doi no article has. *)
Definition orphan_link : Authorship :=
  {| author_orcid := "0000-0000-0000-000Q"; article_doi := "W" |}.

(** A second author with the id of A and an orcid of their own. *)
Definition author_A' : Author :=
  {| id := 0; orcid := "0000-0000-0000-000E"; last_name := "E"; given_names := "" |}.

Definition shared_id_fat : list FatArticle := [fat_of "X" [author_A; author_A']].

(** ** Further definitions *)

(** Some article has two authors with different orcids, the first with the
    id [i] and the second with the id [j]: the loops append the pair. *)
Definition coauthors_on (fat_articles : list FatArticle) (i j : Z) : Prop :=
  ∃ article a c,
    article ∈ fat_articles ∧ a ∈ authors article ∧ c ∈ authors article ∧
    orcid a ≠ orcid c ∧ id a = i ∧ id c = j.

(** The values of [np.int32], the index type of csgraph ([ITYPE]) and of a
    sparse matrix whose indices and shape fit it. *)
Definition int32_range (i : Z) : Prop := - 2 ^ 31 ≤ i < 2 ^ 31.

(** [hops g a b n]: a directed path from node a to b with n edges. *)
Inductive hops (g : csr_matrix) (a : Z) : Z → nat → Prop :=
  | hops_here : is_node g a → hops g a a 0
  | hops_step u v n w : hops g a u n → edge g u v w → hops g a v (S n).

(** Every stored weight is 1: no ordered pair was appended twice. *)
Definition unit_weights (g : csr_matrix) : Prop :=
  map_Forall (λ _ w, w = 1) (stored g).

(** Every stored weight is at least 1: no sum wrapped around. *)
Definition positive_weights (g : csr_matrix) : Prop :=
  map_Forall (λ _ w, 1 ≤ w) (stored g).

(** No stored position lies in row [a]; none lies in column [b]. *)
Definition no_edge_from (g : csr_matrix) (a : Z) : Prop :=
  map_Forall (λ k _, k.1 ≠ a) (stored g).

Definition no_edge_to (g : csr_matrix) (b : Z) : Prop :=
  map_Forall (λ k _, k.2 ≠ b) (stored g).

(** Article X by A and C: the node 1 lies within the matrix and has no edge. *)
Definition gap_fat : list FatArticle := [fat_of "X" [author_A; author_C]].

Definition gap_graph : csr_matrix :=
  {| shape := (3, 3); stored := list_to_map [((0, 2), 1); ((2, 0), 1)] |}.

(** An earlier record with the orcid of A, under another id. *)
Definition author_A_old : Author :=
  {| id := 7; orcid := "0000-0000-0000-000A"; last_name := "A";
     given_names := "old" |}.

(** A link's author is known if some author record has its orcid. *)
Definition known_author (authors : list Author) (l : Authorship) : Prop :=
  ∃ a, a ∈ authors ∧ orcid a = author_orcid l.

(** The keys of the three TypedDicts, in the order the loaders look them
    up. *)
Definition author_keys : list string :=
  ["id"; "orcid"; "last_name"; "given_names"].

Definition article_keys : list string := ["title"; "doi"; "publication_date"].

Definition authorship_keys : list string := ["author_orcid"; "article_doi"].

(** The dict [item] has all of [keys]. *)
Definition complete_item {V : Type} (keys : list string) (item : gmap string V)
    : Prop :=
  ∀ k, k ∈ keys → is_Some (item !! k).

(** The dict [o] is [item] restricted to [keys]. *)
Definition restriction {V : Type} (keys : list string)
    (item o : gmap string V) : Prop :=
  ∀ k, o !! k = if decide (k ∈ keys) then item !! k else None.

(** What a loader does with [data], for its key list: either every item is
    complete and the result is the list of their restrictions, or the
    KeyError names the first missing key of the first incomplete item. *)
Definition loader_outcome {V : Type} (keys : list string)
    (data : list (gmap string V)) (r : result (list (gmap string V))) : Prop :=
  (∃ out, r = Ok out ∧ Forall (complete_item keys) data ∧
          Forall2 (restriction keys) data out)
  ∨
  (∃ items1 item items2 ks1 k ks2,
     data = items1 ++ item :: items2 ∧ keys = ks1 ++ k :: ks2 ∧
     Forall (complete_item keys) items1 ∧ complete_item ks1 item ∧
     item !! k = None ∧ r = Raise (KeyError k)).

(** The same lookups as a loop over a key list, for the proofs. *)
Fixpoint project {V : Type} (keys : list string) (item acc : gmap string V)
    : result (gmap string V) :=
  match keys with
  | [] => Ok acc
  | k :: ks =>
      v ← TypedDict.dict_getitem V item k;
      project ks item (<[k := v]> acc)
  end.

(** * Facts about the builder *)

Lemma push_pairs_nil st : push_pairs st [] = st.
Proof. destruct st; unfold push_pairs; simpl. by rewrite !app_nil_r. Qed.

Lemma push_pairs_app st ps qs :
  push_pairs (push_pairs st ps) qs = push_pairs st (ps ++ qs).
Proof.
  unfold push_pairs; simpl. by rewrite !fmap_app, !app_assoc.
Qed.

Lemma pairs_of_author_cons c l author :
  pairs_of_author (c :: l) author =
  (if String.eqb (orcid author) (orcid c) then [] else [(id author, id c)])
  ++ pairs_of_author l author.
Proof. reflexivity. Qed.

Lemma coauthor_loop_pairs author l st :
  foldl (coauthor_step author) st l = push_pairs st (pairs_of_author l author).
Proof.
  revert st. induction l as [|c l IH]; intros st.
  - apply eq_sym, push_pairs_nil.
  - rewrite pairs_of_author_cons. cbn [foldl]. rewrite IH.
    rewrite <- push_pairs_app. f_equal.
    unfold coauthor_step.
    destruct (String.eqb (orcid author) (orcid c)); [by rewrite push_pairs_nil | done].
Qed.

Lemma author_loop_pairs article l st :
  foldl (author_step article) st l =
  push_pairs st (l ≫= pairs_of_author (authors article)).
Proof.
  revert st. induction l as [|a l IH]; intros st.
  - apply eq_sym, push_pairs_nil.
  - rewrite bind_cons. cbn [foldl]. rewrite IH. unfold author_step at 1.
    by rewrite coauthor_loop_pairs, push_pairs_app.
Qed.

Lemma article_loop_pairs l st :
  foldl article_step st l = push_pairs st (coauthor_pairs l).
Proof.
  revert st. induction l as [|a l IH]; intros st.
  - apply eq_sym, push_pairs_nil.
  - unfold coauthor_pairs. rewrite bind_cons. cbn [foldl]. rewrite IH.
    unfold article_step at 1.
    by rewrite author_loop_pairs, push_pairs_app.
Qed.

Lemma collect_pairs_spec fat_articles :
  collect_pairs fat_articles =
  {| row_idx := (coauthor_pairs fat_articles).*1;
     col_idx := (coauthor_pairs fat_articles).*2;
     distance := (λ _, 1) <$> coauthor_pairs fat_articles |}.
Proof. unfold collect_pairs. by rewrite article_loop_pairs. Qed.

Lemma zip_fst_snd {A B : Type} (l : list (A * B)) : zip (l.*1) (l.*2) = l.
Proof.
  induction l as [|[a b] l IH]; [done|].
  rewrite !fmap_cons. cbn [zip_with fst snd]. by rewrite IH.
Qed.

Lemma pair_count_spec fat_articles i j :
  pair_count fat_articles i j =
  Z.of_nat (occurrences (i, j) (coauthor_pairs fat_articles)).
Proof.
  unfold pair_count. cbv zeta. rewrite collect_pairs_spec. cbn [row_idx col_idx].
  by rewrite zip_fst_snd.
Qed.

(** ** int8 arithmetic *)

Lemma int8_range z : -128 ≤ int8 z ≤ 127.
Proof. unfold int8. pose proof (Z.mod_pos_bound (z + 128) 256). lia. Qed.

Lemma int8_small z : -128 ≤ z ≤ 127 → int8 z = z.
Proof. intros H. unfold int8. rewrite Z.mod_small; lia. Qed.

Lemma int8_add_l a b : int8 (int8 a + b) = int8 (a + b).
Proof.
  unfold int8. f_equal.
  replace ((a + 128) mod 256 - 128 + b + 128) with ((a + 128) mod 256 + b) by lia.
  rewrite Zplus_mod_idemp_l. f_equal. lia.
Qed.

(** ** Counting occurrences *)

Lemma occurrences_nil k : occurrences k [] = 0%nat.
Proof. reflexivity. Qed.

Lemma occurrences_cons k p l :
  occurrences k (p :: l) =
  ((if decide (p = k) then 1 else 0) + occurrences k l)%nat.
Proof.
  unfold occurrences. rewrite filter_cons. by destruct (decide (p = k)).
Qed.

Lemma occurrences_app k l1 l2 :
  occurrences k (l1 ++ l2) = (occurrences k l1 + occurrences k l2)%nat.
Proof. unfold occurrences. by rewrite filter_app, length_app. Qed.

Lemma occurrences_bind {A : Type} k (f : A → list (Z * Z)) (l : list A) :
  occurrences k (l ≫= f) = sum_list_with (λ x, occurrences k (f x)) l.
Proof.
  induction l as [|x l IH]; [done|].
  rewrite bind_cons, occurrences_app, IH. done.
Qed.

Lemma occurrences_pos k l : (0 < occurrences k l)%nat ↔ k ∈ l.
Proof.
  unfold occurrences. split.
  - intros H. destruct (filter (λ p, p = k) l) as [|p l'] eqn:E; [simpl in H; lia|].
    assert (Hp : p ∈ filter (λ p, p = k) l) by (rewrite E; left).
    apply list_elem_of_filter in Hp as [-> Hp]. done.
  - intros H.
    assert (Hp : k ∈ filter (λ p, p = k) l) by (by apply list_elem_of_filter).
    destruct (filter (λ p, p = k) l); [by apply not_elem_of_nil in Hp | simpl; lia].
Qed.

Lemma sum_list_with_add {A : Type} (f g : A → nat) (l : list A) :
  sum_list_with (λ x, f x + g x)%nat l =
  (sum_list_with f l + sum_list_with g l)%nat.
Proof. induction l as [|x l IH]; simpl; [done | rewrite IH; lia]. Qed.

Lemma sum_list_with_zero {A : Type} (l : list A) :
  sum_list_with (λ _, 0%nat) l = 0%nat.
Proof. induction l; simpl; [done | lia]. Qed.

Lemma sum_list_with_ext_eq {A : Type} (f g : A → nat) (l : list A) :
  (∀ x, f x = g x) → sum_list_with f l = sum_list_with g l.
Proof. intros H. induction l as [|x l IH]; simpl; [done | by rewrite H, IH]. Qed.

(** Exchanging the two loops of a double count. *)
Lemma sum_list_with_exchange {A B : Type} (f : A → B → nat) l1 l2 :
  sum_list_with (λ a, sum_list_with (λ c, f a c) l2) l1 =
  sum_list_with (λ c, sum_list_with (λ a, f a c) l1) l2.
Proof.
  induction l1 as [|a l1 IH]; simpl.
  - by rewrite sum_list_with_zero.
  - by rewrite IH, sum_list_with_add.
Qed.

Lemma sum_list_with_ext_in {A : Type} (f h : A → nat) (l : list A) :
  (∀ x, x ∈ l → f x = h x) → sum_list_with f l = sum_list_with h l.
Proof.
  induction l as [|x l IH]; intros H; simpl; [done|].
  rewrite (H x) by left. rewrite IH; [done|]. intros y Hy. apply H. by right.
Qed.

Lemma sum_list_with_mul_l {A : Type} (k : nat) (f : A → nat) (l : list A) :
  sum_list_with (λ x, k * f x)%nat l = (k * sum_list_with f l)%nat.
Proof. induction l as [|x l IH]; simpl; [lia | rewrite IH; lia]. Qed.

Lemma length_filter_sum {A : Type} (P : A → Prop) `{!∀ x, Decision (P x)}
    (l : list A) :
  length (filter P l) = sum_list_with (λ x, if decide (P x) then 1 else 0)%nat l.
Proof.
  induction l as [|x l IH]; [done|].
  rewrite filter_cons. simpl. destruct (decide (P x)); simpl; by rewrite IH.
Qed.

Lemma occurrences_pairs_of_author k l author :
  occurrences k (pairs_of_author l author) =
  sum_list_with (pair_hit k author) l.
Proof.
  unfold pairs_of_author. rewrite occurrences_bind.
  apply sum_list_with_ext_eq. intros c. unfold pair_hit.
  destruct (String.eqb (orcid author) (orcid c)); [done|].
  rewrite occurrences_cons, occurrences_nil. destruct (decide _); lia.
Qed.

Lemma occurrences_pairs_of_article k article :
  occurrences k (pairs_of_article article) =
  sum_list_with (λ a, sum_list_with (pair_hit k a) (authors article))
                (authors article).
Proof.
  unfold pairs_of_article. rewrite occurrences_bind.
  apply sum_list_with_ext_eq. intros a. apply occurrences_pairs_of_author.
Qed.

Lemma pair_hit_swap i j a c : pair_hit (i, j) a c = pair_hit (j, i) c a.
Proof.
  unfold pair_hit. rewrite (String.eqb_sym (orcid c)).
  destruct (String.eqb (orcid a) (orcid c)); [done|].
  repeat destruct (decide _); congruence.
Qed.

(** Both ordered directions of every pair are appended equally often. *)
Lemma occurrences_coauthor_pairs_swap fat_articles i j :
  occurrences (i, j) (coauthor_pairs fat_articles) =
  occurrences (j, i) (coauthor_pairs fat_articles).
Proof.
  unfold coauthor_pairs. rewrite !occurrences_bind.
  apply sum_list_with_ext_eq. intros article.
  rewrite !occurrences_pairs_of_article.
  rewrite sum_list_with_exchange.
  apply sum_list_with_ext_eq. intros c.
  apply sum_list_with_ext_eq. intros a. apply pair_hit_swap.
Qed.

Lemma coauthor_pairs_swap fat_articles i j :
  (i, j) ∈ coauthor_pairs fat_articles → (j, i) ∈ coauthor_pairs fat_articles.
Proof.
  rewrite <- !occurrences_pos. by rewrite occurrences_coauthor_pairs_swap.
Qed.

(** ** The shape and the stored values of a built matrix *)

Lemma list_max_ge (l : list Z) x : x ∈ l → x ≤ list_max l.
Proof.
  unfold list_max. generalize (hd 0 l). intros d.
  induction l as [|y l IH]; intros H; [by apply not_elem_of_nil in H|].
  apply elem_of_cons in H as [->|H]; simpl; [lia|]. specialize (IH H). lia.
Qed.

Lemma list_max_elem (l : list Z) : l ≠ [] → list_max l ∈ l.
Proof.
  destruct l as [|y l]; [done|]. intros _. unfold list_max. simpl hd.
  assert (H : ∀ l' : list Z, foldr Z.max y l' = y ∨ foldr Z.max y l' ∈ l').
  { induction l' as [|z l' IH]; simpl; [by left|].
    destruct (Z.max_spec z (foldr Z.max y l')) as [[_ ->]|[_ ->]].
    - destruct IH as [->|IH]; [by left | right; by right].
    - right; left. }
  destruct (H (y :: l)) as [->|H']; [left | done].
Qed.

Lemma list_min_le (l : list Z) x : x ∈ l → list_min l ≤ x.
Proof.
  unfold list_min. generalize (hd 0 l). intros d.
  induction l as [|y l IH]; intros H; [by apply not_elem_of_nil in H|].
  apply elem_of_cons in H as [->|H]; simpl; [lia|]. specialize (IH H). lia.
Qed.

Lemma list_min_elem (l : list Z) : l ≠ [] → list_min l ∈ l.
Proof.
  destruct l as [|y l]; [done|]. intros _. unfold list_min. simpl hd.
  assert (H : ∀ l' : list Z, foldr Z.min y l' = y ∨ foldr Z.min y l' ∈ l').
  { induction l' as [|z l' IH]; simpl; [by left|].
    destruct (Z.min_spec z (foldr Z.min y l')) as [[_ ->]|[_ ->]].
    - right; left.
    - destruct IH as [->|IH]; [by left | right; by right]. }
  destruct (H (y :: l)) as [->|H']; [left | done].
Qed.

Lemma list_max_same_elements (l1 l2 : list Z) :
  l1 ≠ [] → (∀ x, x ∈ l1 ↔ x ∈ l2) → list_max l1 = list_max l2.
Proof.
  intros Hne Heq.
  assert (Hne2 : l2 ≠ []).
  { destruct l1 as [|x l1]; [done|]. intros ->.
    eapply not_elem_of_nil, Heq. left. }
  pose proof (list_max_elem l1 Hne) as H1.
  pose proof (list_max_elem l2 Hne2) as H2.
  apply Heq in H1. apply Heq in H2.
  apply list_max_ge in H1. apply list_max_ge in H2. lia.
Qed.

Lemma csr_fold_lookup ps m k :
  foldl csr_add m ((λ p, (p, 1)) <$> ps) !! k =
  match occurrences k ps with
  | O => m !! k
  | S n => Some (int8 (default 0 (m !! k) + Z.of_nat (S n)))
  end.
Proof.
  revert m. induction ps as [|p ps IH]; intros m; [done|].
  rewrite fmap_cons. cbn [foldl]. rewrite IH, occurrences_cons.
  destruct p as [i j]. unfold csr_add.
  destruct (decide ((i, j) = k)) as [<-|Hne].
  - rewrite lookup_insert_eq. cbn [default from_option]. unfold Datatypes.id.
    destruct (occurrences (i, j) ps) as [|n]; cbn [Nat.add].
    + done.
    + rewrite int8_add_l. do 2 f_equal. lia.
  - rewrite lookup_insert_ne by done. done.
Qed.

Lemma zip_ones (ps : list (Z * Z)) :
  zip ps (int8 <$> ((λ _, 1) <$> ps)) = (λ p, (p, 1)) <$> ps.
Proof.
  induction ps as [|q ps IH]; [done|].
  rewrite !fmap_cons. cbn [zip_with]. by rewrite IH.
Qed.

(** What a successful build returns, in terms of the appended pairs. *)
Lemma build_coauthorship_matrix_spec fat_articles m :
  build_coauthorship_matrix fat_articles = Ok m →
  let ps := coauthor_pairs fat_articles in
  ps ≠ [] ∧
  (∀ p, p ∈ ps → 0 ≤ p.1 ∧ 0 ≤ p.2) ∧
  shape m = (list_max ps.*1 + 1, list_max ps.*2 + 1) ∧
  stored m = foldl csr_add ∅ ((λ p, (p, 1)) <$> ps).
Proof.
  unfold build_coauthorship_matrix. cbv zeta.
  rewrite collect_pairs_spec. cbn [row_idx col_idx distance].
  generalize (coauthor_pairs fat_articles). intros ps. unfold coo_matrix.
  destruct (ps.*1) as [|r rs] eqn:Er.
  { destruct ps; [done | discriminate Er]. }
  destruct (ps.*2) as [|c cs] eqn:Ec.
  { destruct ps; [done | discriminate Ec]. }
  rewrite <- Er, <- Ec.
  destruct (list_min ps.*1 <? 0) eqn:Emr; [done|].
  destruct (list_min ps.*2 <? 0) eqn:Emc; [done|].
  cbn. intros [= <-]. cbn [shape stored].
  split_and!.
  - intros ->. discriminate Er.
  - intros q Hq. split.
    + assert (H : q.1 ∈ ps.*1) by (by apply list_elem_of_fmap_2).
      apply list_min_le in H. lia.
    + assert (H : q.2 ∈ ps.*2) by (by apply list_elem_of_fmap_2).
      apply list_min_le in H. lia.
  - done.
  - unfold tocsr, coo_entries. cbn [coo_row coo_col coo_data].
    by rewrite zip_fst_snd, zip_ones.
Qed.

(** When the build raises: no pair was appended, or an id is negative. *)
Lemma build_coauthorship_matrix_Raise fat_articles e :
  build_coauthorship_matrix fat_articles = Raise e →
  (e = ValueError ZeroSizedIndex ∧ coauthor_pairs fat_articles = []) ∨
  (e = ValueError NegativeIndex ∧
   ∃ p, p ∈ coauthor_pairs fat_articles ∧ (p.1 < 0 ∨ p.2 < 0)).
Proof.
  unfold build_coauthorship_matrix. cbv zeta.
  rewrite collect_pairs_spec. cbn [row_idx col_idx distance].
  generalize (coauthor_pairs fat_articles). intros ps. unfold coo_matrix.
  destruct (ps.*1) as [|r rs] eqn:Er.
  { destruct ps; [|discriminate Er]. intros [= <-]. by left. }
  destruct (ps.*2) as [|c cs] eqn:Ec.
  { destruct ps; [done | discriminate Ec]. }
  rewrite <- Er, <- Ec.
  destruct (list_min ps.*1 <? 0) eqn:Emr.
  - cbn. intros [= <-]. right. split; [done|].
    assert (Hin : list_min ps.*1 ∈ ps.*1)
      by (apply list_min_elem; by rewrite Er).
    apply list_elem_of_fmap in Hin as (p & Hp & Hin).
    exists p. split; [done|]. left. lia.
  - destruct (list_min ps.*2 <? 0) eqn:Emc; [|done].
    cbn. intros [= <-]. right. split; [done|].
    assert (Hin : list_min ps.*2 ∈ ps.*2)
      by (apply list_min_elem; by rewrite Ec).
    apply list_elem_of_fmap in Hin as (p & Hp & Hin).
    exists p. split; [done|]. right. lia.
Qed.

Lemma built_stored fat_articles m k :
  build_coauthorship_matrix fat_articles = Ok m →
  stored m !! k =
  match occurrences k (coauthor_pairs fat_articles) with
  | O => None
  | S n => Some (int8 (Z.of_nat (S n)))
  end.
Proof.
  intros H. apply build_coauthorship_matrix_spec in H as (_ & _ & _ & ->).
  rewrite csr_fold_lookup, lookup_empty. done.
Qed.

Lemma built_entry fat_articles m i j :
  build_coauthorship_matrix fat_articles = Ok m →
  default 0 (stored m !! (i, j)) = int8 (pair_count fat_articles i j).
Proof.
  intros H. rewrite (built_stored _ _ _ H), pair_count_spec.
  by destruct (occurrences _ _).
Qed.

Lemma built_square fat_articles m :
  build_coauthorship_matrix fat_articles = Ok m →
  (shape m).1 = (shape m).2.
Proof.
  intros H. apply build_coauthorship_matrix_spec in H as (Hne & _ & -> & _).
  cbn [fst snd]. f_equal.
  apply list_max_same_elements.
  - destruct (coauthor_pairs fat_articles); done.
  - intros x. rewrite !list_elem_of_fmap. split.
    + intros ([i j] & -> & Hp). exists (j, i). split; [done|].
      by apply coauthor_pairs_swap.
    + intros ([i j] & -> & Hp). exists (j, i). split; [done|].
      by apply coauthor_pairs_swap.
Qed.

Lemma built_stored_in_bounds fat_articles m i j w :
  build_coauthorship_matrix fat_articles = Ok m →
  stored m !! (i, j) = Some w →
  (0 ≤ i < (shape m).1) ∧ (0 ≤ j < (shape m).2).
Proof.
  intros H Hw. rewrite (built_stored _ _ _ H) in Hw.
  assert (Hin : (i, j) ∈ coauthor_pairs fat_articles).
  { apply occurrences_pos. destruct (occurrences _ _); [done | lia]. }
  apply build_coauthorship_matrix_spec in H as (_ & Hpos & -> & _).
  cbn [fst snd]. specialize (Hpos _ Hin). cbn [fst snd] in Hpos.
  assert (H1 : i ∈ (coauthor_pairs fat_articles).*1).
  { apply list_elem_of_fmap. by exists (i, j). }
  assert (H2 : j ∈ (coauthor_pairs fat_articles).*2).
  { apply list_elem_of_fmap. by exists (i, j). }
  apply list_max_ge in H1. apply list_max_ge in H2. lia.
Qed.

Lemma built_stored_sym fat_articles m i j :
  build_coauthorship_matrix fat_articles = Ok m →
  stored m !! (i, j) = stored m !! (j, i).
Proof.
  intros H. rewrite !(built_stored _ _ _ H).
  by rewrite occurrences_coauthor_pairs_swap.
Qed.

Lemma norm_index_in_bounds n i : 0 ≤ i < n → norm_index n i = Ok i.
Proof.
  intros H. unfold norm_index.
  destruct (0 <=? i) eqn:E1; [|lia]. destruct (i <? n) eqn:E2; [done | lia].
Qed.

Lemma norm_index_Ok n i i' : norm_index n i = Ok i' → 0 ≤ i' < n.
Proof.
  unfold norm_index.
  destruct ((0 <=? i) && (i <? n)) eqn:E1.
  - intros [= <-]. lia.
  - destruct ((- n <=? i) && (i <? 0)) eqn:E2; [|done]. intros [= <-]. lia.
Qed.

Lemma norm_index_Raise n i e : norm_index n i = Raise e → e = IndexError.
Proof. unfold norm_index. repeat case_match; congruence. Qed.

Lemma sum_list_with_zero_on {A : Type} (f : A → nat) (l : list A) :
  (∀ x, x ∈ l → f x = 0%nat) → sum_list_with f l = 0%nat.
Proof.
  induction l as [|x l IH]; intros H; simpl; [done|].
  rewrite (H x) by left. rewrite IH; [done|]. intros y Hy. apply H. by right.
Qed.

Lemma no_diagonal_pairs fat_articles i :
  distinct_ids fat_articles →
  occurrences (i, i) (coauthor_pairs fat_articles) = 0%nat.
Proof.
  intros Hid. unfold coauthor_pairs. rewrite occurrences_bind.
  apply sum_list_with_zero_on. intros article Hart.
  rewrite occurrences_pairs_of_article.
  assert (Hin : ∀ a, a ∈ authors article → a ∈ all_authors fat_articles).
  { intros a Ha. unfold all_authors. apply list_elem_of_bind. eauto. }
  apply sum_list_with_zero_on. intros a Ha.
  apply sum_list_with_zero_on. intros c Hc.
  unfold pair_hit. destruct (String.eqb (orcid a) (orcid c)) eqn:E; [done|].
  destruct (decide _) as [[= H1 H2]|]; [|done].
  apply String.eqb_neq in E. exfalso. apply E.
  apply Hid; [by apply Hin | by apply Hin | congruence].
Qed.

(** Where an orcid belongs to one id, the appended pairs of distinct ids are
    counted by [joint_count]. *)
Lemma pair_count_joint_count fat_articles i j :
  orcid_determines_id fat_articles → i ≠ j →
  pair_count fat_articles i j = joint_count fat_articles i j.
Proof.
  intros Hoi Hij. rewrite pair_count_spec. unfold joint_count. f_equal.
  unfold coauthor_pairs. rewrite occurrences_bind.
  apply sum_list_with_ext_in. intros article Hart.
  rewrite occurrences_pairs_of_article.
  assert (Hin : ∀ a, a ∈ authors article → a ∈ all_authors fat_articles).
  { intros a Ha. unfold all_authors. apply list_elem_of_bind. eauto. }
  unfold author_links. rewrite !length_filter_sum.
  rewrite Nat.mul_comm, <- sum_list_with_mul_l.
  apply sum_list_with_ext_in. intros a Ha.
  rewrite Nat.mul_comm, <- sum_list_with_mul_l.
  apply sum_list_with_ext_in. intros c Hc.
  unfold pair_hit.
  destruct (String.eqb (orcid a) (orcid c)) eqn:E.
  - apply String.eqb_eq in E.
    pose proof (Hoi a c (Hin _ Ha) (Hin _ Hc) E).
    repeat destruct (decide _); try done; congruence.
  - repeat destruct (decide _); try done; congruence.
Qed.

(** Up to 127 the entry is the number of joint articles; beyond, its int8
    wrap. *)
Lemma built_entry_joint_count fat_articles coauthorship i j :
  orcid_determines_id fat_articles → i ≠ j →
  build_coauthorship_matrix fat_articles = Ok coauthorship →
  0 ≤ i < (shape coauthorship).1 → 0 ≤ j < (shape coauthorship).2 →
  getitem coauthorship i j = Ok (int8 (joint_count fat_articles i j)) ∧
  (joint_count fat_articles i j ≤ 127 →
   getitem coauthorship i j = Ok (joint_count fat_articles i j)).
Proof.
  intros Hoi Hij Hb Hi Hj.
  assert (H : getitem coauthorship i j = Ok (int8 (joint_count fat_articles i j))).
  { unfold getitem. rewrite !norm_index_in_bounds by done.
    cbn [mbind result_bind].
    by rewrite (built_entry _ _ _ _ Hb), pair_count_joint_count. }
  split; [done|]. intros Hle. rewrite H, int8_small; [done|].
  unfold joint_count in *. lia.
Qed.

(** * Facts about the shortest-path search *)

(** ** Paths *)


Lemma path_cost_nonneg g a b c : non_negative g → path g a b c → 0 ≤ c.
Proof.
  intros Hnn. induction 1 as [|u v c w _ IH He]; [done|].
  apply Hnn in He. lia.
Qed.

(** ** The pieces of one turn *)

Lemma elem_of_row g v j w : (j, w) ∈ row g v ↔ edge g v j w.
Proof.
  unfold row, edge. rewrite list_elem_of_omap. split.
  - intros ([[i j'] w'] & Hin & Hf). cbn in Hf.
    destruct (i =? v) eqn:E; [|done]. apply Z.eqb_eq in E as ->.
    injection Hf as -> ->. by apply elem_of_map_to_list.
  - intros H. exists ((v, j), w). split; [by apply elem_of_map_to_list|].
    cbn. by rewrite Z.eqb_refl.
Qed.

Lemma min_entry_None l : min_entry l = None → l = [].
Proof.
  destruct l as [|e l]; [done|]. simpl.
  destruct (min_entry l) as [b|]; [|done]. by destruct (e.2 <=? b.2).
Qed.

Lemma min_entry_Some l e :
  min_entry l = Some e → e ∈ l ∧ ∀ e', e' ∈ l → e.2 ≤ e'.2.
Proof.
  revert e. induction l as [|x l IH]; intros e; [done|]. simpl.
  destruct (min_entry l) as [b|] eqn:E.
  - destruct (IH b eq_refl) as [Hb Hmin].
    destruct (x.2 <=? b.2) eqn:Ex; intros [= <-].
    + split; [left|]. intros e' [->|He']%elem_of_cons; [lia|].
      specialize (Hmin _ He'). lia.
    + split; [by right|]. intros e' [->|He']%elem_of_cons; [lia|].
      by apply Hmin.
  - intros [= <-]. apply min_entry_None in E as ->.
    split; [left|]. by intros e' ->%list_elem_of_singleton.
Qed.

Lemma remove_min_None h : remove_min h = None → h = ∅.
Proof.
  unfold remove_min. intros H%min_entry_None. by apply map_to_list_empty_iff.
Qed.

Lemma remove_min_Some h v t :
  remove_min h = Some (v, t) →
  h !! v = Some t ∧ ∀ u d, h !! u = Some d → t ≤ d.
Proof.
  unfold remove_min. intros [Hin Hmin]%min_entry_Some. split.
  - by apply elem_of_map_to_list.
  - intros u d Hu. apply elem_of_map_to_list in Hu. by apply Hmin in Hu.
Qed.

Lemma remove_min_empty : remove_min ∅ = None.
Proof. unfold remove_min. by rewrite map_to_list_empty. Qed.

Lemma relax_scanned t st e : scanned (relax t st e) = scanned st.
Proof.
  unfold relax. destruct e as [j w].
  destruct (scanned st !! j); [done|].
  destruct (heap st !! j); [|done]. by destruct (_ >? _).
Qed.

Lemma foldl_relax_scanned t es st : scanned (foldl (relax t) st es) = scanned st.
Proof.
  revert st. induction es as [|e es IH]; intros st; [done|].
  cbn [foldl]. by rewrite IH, relax_scanned.
Qed.

(** A tentative value already in the heap can only decrease. *)
Lemma relax_heap_mono t st e j d :
  heap st !! j = Some d → ∃ d', heap (relax t st e) !! j = Some d' ∧ d' ≤ d.
Proof.
  intros Hj. unfold relax. destruct e as [k w].
  destruct (scanned st !! k); [exists d; split; [done|lia]|].
  destruct (heap st !! k) as [cur|] eqn:Ek.
  - destruct (cur >? t + w) eqn:Ecmp; [|exists d; split; [done|lia]].
    cbn [heap]. destruct (decide (k = j)) as [->|Hne].
    + rewrite lookup_insert_eq. exists (t + w). split; [done|].
      rewrite Hj in Ek. injection Ek as ->. lia.
    + rewrite lookup_insert_ne by done. exists d. split; [done|lia].
  - cbn [heap]. destruct (decide (k = j)) as [->|Hne]; [congruence|].
    rewrite lookup_insert_ne by done. exists d. split; [done|lia].
Qed.

(** A value in the heap after a relaxation was there before or comes from
    the relaxed edge, whose target is not scanned. *)
Lemma relax_heap_origin t st e j d' :
  heap (relax t st e) !! j = Some d' →
  heap st !! j = Some d' ∨
  (∃ w, e = (j, w) ∧ d' = t + w ∧ scanned st !! j = None).
Proof.
  unfold relax. destruct e as [k w].
  destruct (scanned st !! k) eqn:Esc; [by left|].
  destruct (heap st !! k) as [cur|] eqn:Ek.
  - destruct (cur >? t + w); [|by left]. cbn [heap].
    destruct (decide (k = j)) as [->|Hne].
    + rewrite lookup_insert_eq. intros [= <-]. right. by exists w.
    + rewrite lookup_insert_ne by done. by left.
  - cbn [heap]. destruct (decide (k = j)) as [->|Hne].
    + rewrite lookup_insert_eq. intros [= <-]. right. by exists w.
    + rewrite lookup_insert_ne by done. by left.
Qed.

(** The target of a relaxed edge, unless scanned, is in the heap with a
    value no larger than the value through that edge. *)
Lemma relax_heap_reached t st j w :
  scanned st !! j = None →
  ∃ d', heap (relax t st (j, w)) !! j = Some d' ∧ d' ≤ t + w.
Proof.
  intros Hsc. unfold relax. rewrite Hsc.
  destruct (heap st !! j) as [cur|] eqn:Ej.
  - destruct (cur >? t + w) eqn:Ecmp; cbn [heap].
    + rewrite lookup_insert_eq. exists (t + w). split; [done|lia].
    + exists cur. split; [done|lia].
  - cbn [heap]. rewrite lookup_insert_eq. exists (t + w). split; [done|lia].
Qed.

Lemma foldl_relax_heap_mono t es st j d :
  heap st !! j = Some d →
  ∃ d', heap (foldl (relax t) st es) !! j = Some d' ∧ d' ≤ d.
Proof.
  revert st d. induction es as [|e es IH]; intros st d Hj.
  - exists d. split; [done|lia].
  - cbn [foldl]. destruct (relax_heap_mono t st e j d Hj) as (d1 & H1 & Hle1).
    destruct (IH _ _ H1) as (d2 & H2 & Hle2). exists d2. split; [done|lia].
Qed.

Lemma foldl_relax_heap_origin t es st j d' :
  heap (foldl (relax t) st es) !! j = Some d' →
  heap st !! j = Some d' ∨
  (∃ w, (j, w) ∈ es ∧ d' = t + w ∧ scanned st !! j = None).
Proof.
  revert st. induction es as [|e es IH]; intros st; [by left|].
  cbn [foldl]. intros [H|(w & Hin & -> & Hsc)]%IH.
  - apply relax_heap_origin in H as [H|(w & -> & -> & Hsc)]; [by left|].
    right. exists w. split_and!; [left | done | done].
  - right. exists w. rewrite relax_scanned in Hsc.
    split_and!; [by right | done | done].
Qed.

Lemma foldl_relax_heap_reached t es st j w :
  (j, w) ∈ es → scanned st !! j = None →
  ∃ d', heap (foldl (relax t) st es) !! j = Some d' ∧ d' ≤ t + w.
Proof.
  revert st. induction es as [|e es IH]; intros st Hin Hsc.
  - by apply not_elem_of_nil in Hin.
  - cbn [foldl]. apply elem_of_cons in Hin as [<-|Hin].
    + destruct (relax_heap_reached t st j w Hsc) as (d1 & H1 & Hle1).
      destruct (foldl_relax_heap_mono t es _ _ _ H1) as (d2 & H2 & Hle2).
      exists d2. split; [done|lia].
    + apply IH; [done|]. by rewrite relax_scanned.
Qed.

(** ** Invariants of the loop *)

Section dijkstra_facts.
Variable g : csr_matrix.
Variable s : Z.

Lemma dijkstra_step_pop st v t :
  remove_min (heap st) = Some (v, t) →
  dijkstra_step g st = foldl (relax t) (popped st v t) (row g v).
Proof. intros H. unfold dijkstra_step. by rewrite H. Qed.

Lemma dijkstra_step_empty st : heap st = ∅ → dijkstra_step g st = st.
Proof. intros H. unfold dijkstra_step. by rewrite H, remove_min_empty. Qed.

Lemma dijkstra_step_disjoint st :
  disjoint_state st → disjoint_state (dijkstra_step g st).
Proof.
  intros Hdis. destruct (remove_min (heap st)) as [[v t]|] eqn:Emin.
  - rewrite (dijkstra_step_pop _ _ _ Emin).
    apply remove_min_Some in Emin as [Hv _].
    intros x. rewrite foldl_relax_scanned.
    destruct (scanned (popped st v t) !! x) as [dx|] eqn:Ex; [right | by left].
    destruct (heap (foldl _ _ _) !! x) as [d'|] eqn:Eh; [exfalso | done].
    apply foldl_relax_heap_origin in Eh as [Eh|(w & _ & _ & Hsc)];
      [|congruence].
    cbn in Eh, Ex. destruct (decide (v = x)) as [->|Hne].
    + by rewrite lookup_delete_eq in Eh.
    + rewrite lookup_delete_ne in Eh by done.
      rewrite lookup_insert_ne in Ex by done.
      destruct (Hdis x); congruence.
  - apply remove_min_None in Emin. by rewrite dijkstra_step_empty.
Qed.

(** A scanned node keeps its value for the rest of the run. *)
Lemma dijkstra_step_scanned st u d :
  disjoint_state st → scanned st !! u = Some d →
  scanned (dijkstra_step g st) !! u = Some d.
Proof.
  intros Hdis Hu. destruct (remove_min (heap st)) as [[v t]|] eqn:Emin.
  - rewrite (dijkstra_step_pop _ _ _ Emin), foldl_relax_scanned.
    apply remove_min_Some in Emin as [Hv _]. cbn.
    rewrite lookup_insert_ne; [done|]. intros ->.
    destruct (Hdis u); congruence.
  - apply remove_min_None in Emin. by rewrite dijkstra_step_empty.
Qed.

Lemma dijkstra_init_disjoint : disjoint_state (dijkstra_init s).
Proof. intros v. left. apply lookup_empty. Qed.

Lemma dijkstra_iter_disjoint k :
  disjoint_state (Nat.iter k (dijkstra_step g) (dijkstra_init s)).
Proof.
  induction k as [|k IH]; [apply dijkstra_init_disjoint|].
  cbn [Nat.iter nat_rect]. by apply dijkstra_step_disjoint.
Qed.

(** The first turn scans the source with value 0. *)
Lemma dijkstra_first_step :
  scanned (dijkstra_step g (dijkstra_init s)) !! s = Some 0.
Proof.
  assert (Emin : remove_min (heap (dijkstra_init s)) = Some (s, 0)).
  { unfold remove_min, dijkstra_init. cbn [heap].
    by rewrite map_to_list_singleton. }
  rewrite (dijkstra_step_pop _ _ _ Emin), foldl_relax_scanned. cbn.
  apply lookup_insert_eq.
Qed.

Lemma dijkstra_iter_source k :
  scanned (Nat.iter (S k) (dijkstra_step g) (dijkstra_init s)) !! s = Some 0.
Proof.
  induction k as [|k IH]; [apply dijkstra_first_step|].
  change (Nat.iter (S (S k)) (dijkstra_step g) (dijkstra_init s))
    with (dijkstra_step g (Nat.iter (S k) (dijkstra_step g) (dijkstra_init s))).
  apply dijkstra_step_scanned; [apply dijkstra_iter_disjoint | done].
Qed.

(** Whatever the weights, the source ends with distance 0. *)
Lemma dijkstra_run_source :
  is_node g s → scanned (dijkstra_run g s) !! s = Some 0.
Proof.
  intros Hs. unfold dijkstra_run, is_node in *.
  destruct (Z.to_nat (shape g).1) as [|k] eqn:E; [lia|].
  apply dijkstra_iter_source.
Qed.

(** Every turn with a non-empty heap scans one more node. *)
Lemma dijkstra_iter_size k :
  let st := Nat.iter k (dijkstra_step g) (dijkstra_init s) in
  heap st = ∅ ∨ size (scanned st) = k.
Proof.
  induction k as [|k IH]; [right; apply map_size_empty|].
  cbn [Nat.iter nat_rect]. cbv zeta in *.
  pose proof (dijkstra_iter_disjoint k) as Hdis.
  set (st := Nat.iter k (dijkstra_step g) (dijkstra_init s)) in *.
  change (nat_rect _ _ _ k) with st.
  destruct IH as [He|Hsize]; [left; by rewrite dijkstra_step_empty|].
  destruct (remove_min (heap st)) as [[v t]|] eqn:Emin.
  - right. rewrite (dijkstra_step_pop _ _ _ Emin), foldl_relax_scanned.
    apply remove_min_Some in Emin as [Hv _]. cbn.
    rewrite map_size_insert_None; [by rewrite Hsize|].
    destruct (Hdis v); congruence.
  - left. apply remove_min_None in Emin. by rewrite dijkstra_step_empty.
Qed.
End dijkstra_facts.

(** ** Correctness for non-negative weights *)

Section dijkstra_correct.
Variable g : csr_matrix.
Variable s : Z.
Hypothesis g_nonneg : non_negative g.
Hypothesis s_node : is_node g s.

Lemma dijkstra_init_inv : dijkstra_inv g s (dijkstra_init s).
Proof.
  split.
  - apply dijkstra_init_disjoint.
  - exists 0. split; [|lia]. right. apply lookup_singleton_eq.
  - intros v d [H|H]; cbn in H; [by rewrite lookup_empty in H|].
    apply lookup_singleton_Some in H as [<- <-]. by constructor.
  - intros u du v w H. cbn in H. by rewrite lookup_empty in H.
  - intros u du v dv H. cbn in H. by rewrite lookup_empty in H.
Qed.

(** What is known before a turn is known after it, with a value at most as
    large. *)
Lemma pop_known_mono st v t x d :
  disjoint_state st → heap st !! v = Some t → known st x d →
  ∃ d', known (foldl (relax t) (popped st v t) (row g v)) x d' ∧ d' ≤ d.
Proof.
  intros Hdis Hv [Hx|Hx].
  - exists d. split; [|lia]. left. rewrite foldl_relax_scanned. cbn.
    rewrite lookup_insert_ne; [done|]. intros ->.
    destruct (Hdis x); congruence.
  - destruct (decide (v = x)) as [->|Hne].
    + exists t. split; [|rewrite Hv in Hx; injection Hx; lia].
      left. rewrite foldl_relax_scanned. cbn. apply lookup_insert_eq.
    + assert (H1 : heap (popped st v t) !! x = Some d).
      { cbn. by rewrite lookup_delete_ne. }
      destruct (foldl_relax_heap_mono t (row g v) _ _ _ H1) as (d' & H' & Hle).
      exists d'. split; [by right | done].
Qed.

Lemma dijkstra_step_inv st :
  dijkstra_inv g s st → dijkstra_inv g s (dijkstra_step g st).
Proof.
  intros Hinv.
  destruct (remove_min (heap st)) as [[v t]|] eqn:Emin; cycle 1.
  { apply remove_min_None in Emin. by rewrite dijkstra_step_empty. }
  pose proof (dijkstra_step_disjoint g st (inv_disjoint _ _ _ Hinv)) as Hdis'.
  rewrite (dijkstra_step_pop _ _ _ _ Emin) in *.
  apply remove_min_Some in Emin as [Hv Hmin].
  destruct Hinv as [Hdis Hsrc Hpath Hclosed Hord].
  assert (Hvs : scanned st !! v = None) by (destruct (Hdis v); congruence).
  assert (Hvpath : path g s v t) by (apply Hpath; by right).
  set (st' := foldl (relax t) (popped st v t) (row g v)) in *.
  assert (Hsc' : ∀ u du, scanned st' !! u = Some du →
                 (u = v ∧ du = t) ∨ (u ≠ v ∧ scanned st !! u = Some du)).
  { intros u du. unfold st'. rewrite foldl_relax_scanned. cbn.
    destruct (decide (v = u)) as [->|Hne].
    - rewrite lookup_insert_eq. intros [= <-]. by left.
    - rewrite lookup_insert_ne by done. intros H. right. split; [congruence|done]. }
  assert (Hhp' : ∀ x dx, heap st' !! x = Some dx →
                 (x ≠ v ∧ heap st !! x = Some dx) ∨
                 (∃ w, edge g v x w ∧ dx = t + w)).
  { intros x dx [H|(w & Hin & -> & _)]%foldl_relax_heap_origin.
    - left. cbn in H. destruct (decide (v = x)) as [->|Hne].
      + by rewrite lookup_delete_eq in H.
      + rewrite lookup_delete_ne in H by done. split; [congruence|done].
    - right. exists w. split; [by apply elem_of_row | done]. }
  split.
  - done.
  - destruct Hsrc as (d & Hd & Hle).
    destruct (pop_known_mono st v t s d Hdis Hv Hd) as (d' & Hd' & Hle').
    exists d'. split; [done|lia].
  - intros x d [[[-> ->]|[_ H]]%Hsc'|[[_ H]|(w & He & ->)]%Hhp'].
    + done.
    + apply Hpath. by left.
    + apply Hpath. by right.
    + by econstructor.
  - intros u du x w [[-> ->]|[Hne Hu]]%Hsc' He.
    + destruct (scanned (popped st v t) !! x) as [dx|] eqn:Ex.
      * exists dx. split.
        -- left. unfold st'. by rewrite foldl_relax_scanned.
        -- apply g_nonneg in He. cbn in Ex.
           destruct (decide (v = x)) as [->|Hne].
           ++ rewrite lookup_insert_eq in Ex. injection Ex as <-. lia.
           ++ rewrite lookup_insert_ne in Ex by done.
              specialize (Hord _ _ _ _ Ex Hv). lia.
      * apply elem_of_row in He.
        destruct (foldl_relax_heap_reached t _ _ _ _ He Ex) as (d' & Hd' & Hle).
        exists d'. split; [by right | done].
    + destruct (Hclosed _ _ _ _ Hu He) as (dv & Hdv & Hle).
      destruct (pop_known_mono st v t x dv Hdis Hv Hdv) as (d' & Hd' & Hle').
      exists d'. split; [done|lia].
  - intros u du x dx [[-> ->]|[Hne Hu]]%Hsc' [[Hxv Hx]|(w & He & ->)]%Hhp'.
    + by apply (Hmin x).
    + apply g_nonneg in He. lia.
    + by apply (Hord u du x dx).
    + apply g_nonneg in He. specialize (Hord _ _ _ _ Hu Hv). lia.
Qed.

Lemma dijkstra_iter_inv k :
  dijkstra_inv g s (Nat.iter k (dijkstra_step g) (dijkstra_init s)).
Proof.
  induction k as [|k IH]; [apply dijkstra_init_inv|].
  cbn [Nat.iter nat_rect]. by apply dijkstra_step_inv.
Qed.
End dijkstra_correct.

(** ** The loop ends within as many turns as there are nodes *)

Section dijkstra_terminates.
Variable g : csr_matrix.
Variable s : Z.
Hypothesis g_wf : well_formed g.
Hypothesis s_node : is_node g s.

Lemma dijkstra_step_in_range st :
  nodes_in_range g st → nodes_in_range g (dijkstra_step g st).
Proof.
  intros Hin. destruct (remove_min (heap st)) as [[v t]|] eqn:Emin; cycle 1.
  { apply remove_min_None in Emin. by rewrite dijkstra_step_empty. }
  rewrite (dijkstra_step_pop _ _ _ _ Emin).
  apply remove_min_Some in Emin as [Hv _].
  intros x d [H|H].
  - rewrite foldl_relax_scanned in H. cbn in H.
    destruct (decide (v = x)) as [->|Hne].
    + apply (Hin x t). by right.
    + rewrite lookup_insert_ne in H by done. apply (Hin x d). by left.
  - apply foldl_relax_heap_origin in H as [H|(w & He & _ & _)].
    + cbn in H. destruct (decide (v = x)) as [->|Hne].
      * by rewrite lookup_delete_eq in H.
      * rewrite lookup_delete_ne in H by done. apply (Hin x d). by right.
    + apply elem_of_row in He. destruct g_wf as [_ Hwf].
      apply Hwf in He. cbn in He. unfold is_node. lia.
Qed.

Lemma dijkstra_iter_in_range k :
  nodes_in_range g (Nat.iter k (dijkstra_step g) (dijkstra_init s)).
Proof.
  induction k as [|k IH]; [|cbn [Nat.iter nat_rect]; by apply dijkstra_step_in_range].
  intros v d [H|H]; cbn in H; [by rewrite lookup_empty in H|].
  by apply lookup_singleton_Some in H as [<- _].
Qed.

(** After as many turns as there are nodes the heap is empty: the while
    loop has ended, and the state is its final state. *)
Lemma dijkstra_run_heap_empty : heap (dijkstra_run g s) = ∅.
Proof.
  unfold dijkstra_run.
  pose proof (dijkstra_iter_size g s (Z.to_nat (shape g).1)) as Hsize.
  pose proof (dijkstra_iter_in_range (Z.to_nat (shape g).1)) as Hin.
  pose proof (dijkstra_iter_disjoint g s (Z.to_nat (shape g).1)) as Hdis.
  cbv zeta in Hsize.
  set (st := Nat.iter _ _ _) in *.
  destruct Hsize as [He|Hsize]; [done|].
  destruct (map_choose_or_empty (heap st)) as [(v & d & Hv)|He]; [exfalso|done].
  assert (Hvn : is_node g v) by (apply (Hin v d); by right).
  assert (Hvs : scanned st !! v = None) by (destruct (Hdis v); congruence).
  set (U := list_to_set (seqZ 0 (shape g).1) : gset Z).
  assert (Hsub : dom (scanned st) ⊆ U ∖ {[v]}).
  { intros x [dx Hx]%elem_of_dom. apply elem_of_difference. split.
    - apply elem_of_list_to_set, elem_of_seqZ.
      assert (is_node g x) by (apply (Hin x dx); by left).
      unfold is_node in *. lia.
    - apply not_elem_of_singleton. intros ->. congruence. }
  apply subseteq_size in Hsub.
  rewrite size_dom, Hsize in Hsub.
  rewrite size_difference in Hsub; cycle 1.
  { apply singleton_subseteq_l, elem_of_list_to_set, elem_of_seqZ.
    unfold is_node in Hvn. lia. }
  rewrite size_singleton in Hsub. unfold U in Hsub.
  rewrite size_list_to_set in Hsub by apply NoDup_seqZ.
  rewrite length_seqZ in Hsub. unfold is_node in Hvn. lia.
Qed.

(** Further turns change nothing. *)
Lemma dijkstra_run_stable : dijkstra_step g (dijkstra_run g s) = dijkstra_run g s.
Proof. apply dijkstra_step_empty, dijkstra_run_heap_empty. Qed.
End dijkstra_terminates.

(** ** Distances are minimal path costs *)

Section dijkstra_distances.
Variable g : csr_matrix.
Variable s : Z.
Hypothesis g_wf : well_formed g.
Hypothesis g_nonneg : non_negative g.
Hypothesis s_node : is_node g s.

Lemma dijkstra_run_inv : dijkstra_inv g s (dijkstra_run g s).
Proof. by apply dijkstra_iter_inv. Qed.

(** A scanned value is the cost of a path from the source. *)
Lemma dijkstra_run_sound v d :
  scanned (dijkstra_run g s) !! v = Some d → path g s v d.
Proof. intros H. apply (inv_path _ _ _ dijkstra_run_inv). by left. Qed.

(** Every node a path leads to is scanned, with a value at most the cost of
    the path. *)
Lemma dijkstra_run_complete v c :
  path g s v c → ∃ d, scanned (dijkstra_run g s) !! v = Some d ∧ d ≤ c.
Proof.
  pose proof dijkstra_run_inv as Hinv.
  pose proof (dijkstra_run_heap_empty g s g_wf s_node) as Hemp.
  assert (Hk : ∀ x d, known (dijkstra_run g s) x d →
               scanned (dijkstra_run g s) !! x = Some d).
  { intros x d [H|H]; [done|]. by rewrite Hemp, lookup_empty in H. }
  induction 1 as [|u v c w _ IH He].
  - destruct (inv_source _ _ _ Hinv) as (d & Hd & Hle). exists d. auto.
  - destruct IH as (du & Hu & Hle).
    destruct (inv_closed _ _ _ Hinv _ _ _ _ Hu He) as (dv & Hdv & Hle').
    exists dv. split; [auto|lia].
Qed.

Lemma dijkstra_run_min v d :
  scanned (dijkstra_run g s) !! v = Some d →
  0 ≤ d ∧ path g s v d ∧ ∀ c, path g s v c → d ≤ c.
Proof.
  intros H. pose proof (dijkstra_run_sound _ _ H) as Hp. split_and!.
  - by eapply path_cost_nonneg.
  - done.
  - intros c (d' & Hd' & Hle)%dijkstra_run_complete. congruence.
Qed.

Lemma dijkstra_run_unreached v :
  scanned (dijkstra_run g s) !! v = None → ∀ c, ¬ path g s v c.
Proof. intros H c (d & Hd & _)%dijkstra_run_complete. congruence. Qed.
End dijkstra_distances.

(** ** erdos and the bounds of the graph *)

Lemma dijkstra_in_bounds g a :
  (shape g).1 = (shape g).2 → is_node g a →
  dijkstra g a =
  Ok ((λ k, scanned (dijkstra_run g a) !! k) <$> seqZ 0 (shape g).1).
Proof.
  intros Hsq Ha. unfold dijkstra, is_node in *. cbv zeta.
  rewrite <- Hsq, Z.eqb_refl. cbn [negb].
  destruct (a <? 0) eqn:E1; [lia|]. rewrite E1.
  destruct ((shape g).1 <=? a) eqn:E3; [lia|]. done.
Qed.

Lemma erdos_in_bounds g a b :
  (shape g).1 = (shape g).2 → is_node g a → is_node g b →
  erdos g a b =
  match scanned (dijkstra_run g a) !! b with
  | Some d => Ok d
  | None => Raise (ValueError NoPath)
  end.
Proof.
  intros Hsq Ha Hb. unfold erdos. rewrite dijkstra_in_bounds by done.
  cbn [mbind result_bind]. unfold np_getitem, is_node in *.
  rewrite length_fmap, length_seqZ, Z2Nat.id by lia.
  rewrite norm_index_in_bounds by done. cbn [mbind result_bind].
  rewrite list_lookup_fmap, lookup_seqZ_lt by lia.
  cbn. rewrite Z2Nat.id by lia. done.
Qed.

(** What erdos does with ids outside [0, N). *)
Lemma erdos_target_out_of_bounds g id_a id_b :
  (shape g).1 = (shape g).2 → is_node g id_a →
  id_b < - (shape g).1 ∨ (shape g).1 ≤ id_b →
  erdos g id_a id_b = Raise IndexError.
Proof.
  intros Hsq Ha Hb. unfold erdos. rewrite dijkstra_in_bounds by done.
  cbn [mbind result_bind]. unfold np_getitem, is_node in *.
  rewrite length_fmap, length_seqZ, Z2Nat.id by lia.
  unfold norm_index.
  destruct ((0 <=? id_b) && (id_b <? (shape g).1)) eqn:E1; [lia|].
  destruct ((- (shape g).1 <=? id_b) && (id_b <? 0)) eqn:E2; [lia|]. done.
Qed.

Lemma erdos_source_out_of_bounds g id_a id_b :
  (shape g).1 = (shape g).2 →
  id_a < - (shape g).1 ∨ (shape g).1 ≤ id_a →
  erdos g id_a id_b = Raise (ValueError IndicesOutOfRange).
Proof.
  intros Hsq Ha. unfold erdos, dijkstra. cbv zeta.
  rewrite <- Hsq, Z.eqb_refl. cbn [negb].
  destruct (id_a <? 0) eqn:E1.
  - destruct (id_a + (shape g).1 <? 0) eqn:E2; [done | lia].
  - destruct (id_a <? 0) eqn:E2; [lia|].
    destruct ((shape g).1 <=? id_a) eqn:E3; [done | lia].
Qed.

Lemma erdos_negative_target g id_a id_b :
  (shape g).1 = (shape g).2 → is_node g id_a →
  - (shape g).1 ≤ id_b < 0 →
  erdos g id_a id_b = erdos g id_a (id_b + (shape g).1).
Proof.
  intros Hsq Ha Hb. unfold erdos. rewrite dijkstra_in_bounds by done.
  cbn [mbind result_bind]. unfold np_getitem, is_node in *.
  rewrite length_fmap, length_seqZ, Z2Nat.id by lia.
  rewrite (norm_index_in_bounds _ (id_b + _)) by lia.
  unfold norm_index.
  destruct ((0 <=? id_b) && (id_b <? (shape g).1)) eqn:E1; [lia|].
  destruct ((- (shape g).1 <=? id_b) && (id_b <? 0)) eqn:E2; [done | lia].
Qed.

Lemma erdos_negative_source g id_a id_b :
  - (shape g).1 ≤ id_a < 0 →
  erdos g id_a id_b = erdos g (id_a + (shape g).1) id_b.
Proof.
  intros Ha. unfold erdos, dijkstra. cbv zeta.
  destruct (negb _); [done|].
  destruct (id_a <? 0) eqn:E1; [|lia].
  destruct (id_a + (shape g).1 <? 0) eqn:E2; [lia|]. by rewrite E2.
Qed.

(** ** erdos on built graphs *)

Lemma built_well_formed fat_articles m :
  build_coauthorship_matrix fat_articles = Ok m → well_formed m.
Proof.
  intros Hb. split; [by eapply built_square|].
  intros [i j] w Hw. cbn [fst snd].
  pose proof (built_stored_in_bounds _ _ _ _ _ Hb Hw) as [Hi Hj].
  rewrite <- (built_square _ _ Hb) in Hj. done.
Qed.

(** Where no ordered pair occurs more than 127 times, every stored weight
    is the number of occurrences of its pair, at least 1. *)
Lemma built_weights_positive fat_articles m :
  build_coauthorship_matrix fat_articles = Ok m →
  (∀ i j, pair_count fat_articles i j ≤ 127) →
  ∀ i j w, edge m i j w → w = pair_count fat_articles i j ∧ 1 ≤ w.
Proof.
  intros Hb Hle i j w Hw. unfold edge in Hw.
  specialize (Hle i j). rewrite pair_count_spec in *.
  rewrite (built_stored _ _ _ Hb) in Hw.
  destruct (occurrences _ _) as [|n]; [done|]. injection Hw as <-.
  rewrite int8_small by lia. lia.
Qed.

Lemma built_non_negative fat_articles m :
  build_coauthorship_matrix fat_articles = Ok m →
  (∀ i j, pair_count fat_articles i j ≤ 127) →
  non_negative m.
Proof.
  intros Hb Hle [i j] w Hw.
  destruct (built_weights_positive _ _ Hb Hle i j w Hw). lia.
Qed.

(** With weights of at least 1 a path between two different nodes costs at
    least 1. *)
Lemma path_cost_positive g a b c :
  (∀ u v w, edge g u v w → 1 ≤ w) → path g a b c → a ≠ b → 1 ≤ c.
Proof.
  intros Hpos Hp. assert (Hc : 0 ≤ c ∧ (a ≠ b → 1 ≤ c)); [|tauto].
  induction Hp as [|u v c w _ [IH0 _] He]; [split; [lia | done]|].
  apply Hpos in He. lia.
Qed.

(** Two different nodes joined by an edge of weight w are at a distance
    between 1 and w; at distance 1 when w = 1. *)
Lemma erdos_edge_bounds g i j w :
  well_formed g → (∀ u v w, edge g u v w → 1 ≤ w) →
  edge g i j w → i ≠ j →
  ∃ d, erdos g i j = Ok d ∧ 1 ≤ d ≤ w.
Proof.
  intros Hwf Hpos He Hij.
  assert (Hnn : non_negative g).
  { intros [u v] x Hx. apply (Hpos u v) in Hx. lia. }
  destruct Hwf as [Hsq Hin]. pose proof (Hin _ _ He) as [Hi Hj]. cbn in Hi, Hj.
  assert (Hp : path g i j (0 + w)) by (econstructor; [by constructor | done]).
  assert (Hni : is_node g i) by (unfold is_node; lia).
  assert (Hnj : is_node g j) by (unfold is_node; lia).
  rewrite erdos_in_bounds by done.
  destruct (scanned (dijkstra_run g i) !! j) as [d|] eqn:E.
  - apply dijkstra_run_min in E as (_ & Hpd & Hmin); [|done..].
    exists d. split; [done|]. split.
    + by eapply path_cost_positive.
    + specialize (Hmin _ Hp). lia.
  - by apply dijkstra_run_unreached in Hp.
Qed.

(** * Facts about attach_authors *)

Lemma authorships_by_doi_lookup authorships d :
  default [] (authorships_by_doi authorships !! d) =
  filter (λ l, article_doi l = d) authorships.
Proof.
  unfold authorships_by_doi.
  set (f := λ (m : gmap string (list Authorship)) authorship,
         <[article_doi authorship :=
             default [] (m !! article_doi authorship) ++ [authorship]]> m).
  assert (H : ∀ ls m, default [] (foldl f m ls !! d) =
              default [] (m !! d) ++ filter (λ l, article_doi l = d) ls).
  { induction ls as [|l ls IH]; intros m.
    - by rewrite app_nil_r.
    - cbn [foldl]. rewrite IH, filter_cons. unfold f.
      destruct (decide (article_doi l = d)) as [->|Hne].
      + rewrite lookup_insert_eq. cbn [default from_option].
        unfold Datatypes.id. by rewrite <- app_assoc.
      + by rewrite lookup_insert_ne. }
  by rewrite H, lookup_empty.
Qed.

Lemma author_by_orcid_None (authors : list Author) o :
  author_by_orcid authors !! o = None ↔ ∀ a, a ∈ authors → orcid a ≠ o.
Proof.
  unfold author_by_orcid.
  assert (H : ∀ (l : list Author) (m : gmap string Author),
    foldl (λ m author, <[orcid author := author]> m) m l !! o = None ↔
    m !! o = None ∧ ∀ a, a ∈ l → orcid a ≠ o).
  { induction l as [|x l IH]; intros m.
    - cbn [foldl]. split; [|by intros [? _]]. intros H. split; [done|].
      intros a Ha. by apply not_elem_of_nil in Ha.
    - cbn [foldl]. rewrite IH. rewrite lookup_insert_None. split.
      + intros [[Hm Hx] Hl]. split; [done|].
        intros a [->|Ha]%elem_of_cons; auto.
      + intros [Hm Hl]. split_and!; [done| |].
        * apply Hl. left.
        * intros a Ha. apply Hl. by right. }
  rewrite H, lookup_empty. split; [by intros [_ ?] | by intros ?; split].
Qed.

Lemma author_by_orcid_Some (authors : list Author) o a :
  author_by_orcid authors !! o = Some a → a ∈ authors ∧ orcid a = o.
Proof.
  unfold author_by_orcid.
  assert (H : ∀ (l : list Author) (m : gmap string Author),
    foldl (λ m author, <[orcid author := author]> m) m l !! o = Some a →
    m !! o = Some a ∨ (a ∈ l ∧ orcid a = o)).
  { induction l as [|x l IH]; intros m; [by left|].
    cbn [foldl]. intros [H|[Hin Ho]]%IH.
    - apply lookup_insert_Some in H as [[<- <-]|[_ H]]; [|by left].
      right. split; [left | done].
    - right. split; [by right | done]. }
  intros [Hm|Hin]%H; [by rewrite lookup_empty in Hm | done].
Qed.

Lemma attach_loop_Ok by_orcid links attached r :
  attach_loop by_orcid links attached = Ok r →
  Forall (λ l, is_Some (by_orcid !! author_orcid l)) links ∧
  r = attached ++ looked_up by_orcid links.
Proof.
  revert attached. induction links as [|l links IH]; intros attached.
  - intros [= <-]. split; [constructor | by rewrite app_nil_r].
  - cbn [attach_loop]. unfold looked_up. cbn [omap list_omap].
    destruct (by_orcid !! author_orcid l) as [a|] eqn:E; [|done].
    intros [Hall ->]%IH. split; [constructor; eauto|].
    by rewrite <- app_assoc.
Qed.

Lemma attach_loop_Raise by_orcid links attached e :
  attach_loop by_orcid links attached = Raise e →
  ∃ l, l ∈ links ∧ by_orcid !! author_orcid l = None ∧
       e = KeyError (author_orcid l).
Proof.
  revert attached. induction links as [|l links IH]; intros attached; [done|].
  cbn [attach_loop].
  destruct (by_orcid !! author_orcid l) as [a|] eqn:E.
  - intros (l' & Hin & Hl')%IH. exists l'. split; [by right | done].
  - intros [= <-]. exists l. split; [left | done].
Qed.

Lemma attach_articles_Ok by_doi by_orcid articles fat_articles r :
  attach_articles by_doi by_orcid articles fat_articles = Ok r →
  Forall (λ article,
            Forall (λ l, is_Some (by_orcid !! author_orcid l))
                   (default [] (by_doi !! doi article))) articles ∧
  r = fat_articles ++ (fat_article_of by_doi by_orcid <$> articles).
Proof.
  revert fat_articles. induction articles as [|x articles IH]; intros acc.
  - intros [= <-]. split; [constructor | by rewrite app_nil_r].
  - cbn [attach_articles].
    destruct (attach_loop by_orcid _ []) as [attached|e] eqn:E; [|done].
    cbn [mbind result_bind]. apply attach_loop_Ok in E as [Hall ->].
    intros [Hrest ->]%IH. split; [by constructor|].
    rewrite fmap_cons, <- app_assoc. done.
Qed.

Lemma attach_articles_Raise by_doi by_orcid articles fat_articles e :
  attach_articles by_doi by_orcid articles fat_articles = Raise e →
  ∃ article l, article ∈ articles ∧ l ∈ default [] (by_doi !! doi article) ∧
               by_orcid !! author_orcid l = None ∧
               e = KeyError (author_orcid l).
Proof.
  revert fat_articles. induction articles as [|x articles IH]; intros acc; [done|].
  cbn [attach_articles].
  destruct (attach_loop by_orcid _ []) as [attached|e'] eqn:E.
  - cbn [mbind result_bind]. intros (a & l & Ha & H)%IH.
    exists a, l. split; [by right | done].
  - cbn [mbind result_bind]. intros [= <-].
    apply attach_loop_Raise in E as (l & Hin & Hl).
    exists x, l. split; [left | done].
Qed.

Lemma looked_up_orcids by_orcid links :
  (∀ o a, by_orcid !! o = Some a → orcid a = o) →
  Forall (λ l, is_Some (by_orcid !! author_orcid l)) links →
  orcid <$> looked_up by_orcid links = author_orcid <$> links.
Proof.
  intros Hkey. induction 1 as [|l links [a Ha] _ IH]; [done|].
  unfold looked_up. cbn [omap list_omap]. rewrite Ha.
  rewrite !fmap_cons. f_equal; [by apply Hkey | done].
Qed.

(** ** The DataFrame variants *)

Lemma DataFrame_merge_unknown_author author_list l ls1 ls2 :
  unknown_author author_list l →
  DataFrame.merge (ls1 ++ l :: ls2) author_list =
  DataFrame.merge (ls1 ++ ls2) author_list.
Proof.
  intros Hunk. unfold DataFrame.merge.
  rewrite !bind_app, bind_cons.
  assert (Hnil : filter (λ a, orcid a = author_orcid l) author_list = []).
  { destruct (filter _ author_list) as [|a rest] eqn:E; [done|].
    assert (Ha : a ∈ filter (λ a, orcid a = author_orcid l) author_list)
      by (rewrite E; left).
    apply list_elem_of_filter in Ha as [Ho Ha]. by apply Hunk in Ha. }
  by rewrite Hnil.
Qed.

(** The inner join drops a link whose author is unknown, without an error:
    the built matrix is the one built without the link. *)
Lemma DataFrame_build_drops_unknown_author author_list l ls1 ls2 :
  unknown_author author_list l →
  DataFrame.build_coauthorship_matrix author_list (ls1 ++ l :: ls2) =
  DataFrame.build_coauthorship_matrix author_list (ls1 ++ ls2).
Proof.
  intros Hunk. unfold DataFrame.build_coauthorship_matrix.
  by rewrite DataFrame_merge_unknown_author.
Qed.

Lemma foldl_fmap_arg {A B C : Type} (f : C → B → C) (h : A → B) (c : C)
    (l : list A) :
  foldl (λ acc x, f acc (h x)) c l = foldl f c (h <$> l).
Proof. revert c. induction l as [|x l IH]; intros c; [done | apply IH]. Qed.

Lemma foldl_ext_fun {A C : Type} (f1 f2 : C → A → C) (c : C) (l : list A) :
  (∀ acc x, f1 acc x = f2 acc x) → foldl f1 c l = foldl f2 c l.
Proof.
  intros H. revert c. induction l as [|x l IH]; intros c; [done|].
  cbn [foldl]. by rewrite H, IH.
Qed.

Lemma DataFrame_group_step st (rows : list (Authorship * Author)) d t p :
  DataFrame.group_step st rows =
  article_step st {| fat_doi := d; fat_title := t; fat_publication_date := p;
                     authors := rows.*2 |}.
Proof.
  unfold DataFrame.group_step, article_step, author_step. cbn [authors].
  rewrite <- (foldl_fmap_arg
                (λ acc a, foldl (coauthor_step a) acc rows.*2) snd st rows).
  apply foldl_ext_fun. intros acc x.
  apply (foldl_fmap_arg (coauthor_step x.2) snd acc rows).
Qed.

(** The DataFrame variants build the matrix the list variants build from the
    groups of the merged frame. *)
Lemma DataFrame_build_as_fat_articles author_list authorships :
  DataFrame.build_coauthorship_matrix author_list authorships =
  build_coauthorship_matrix (fat_articles_of_frames author_list authorships).
Proof.
  unfold DataFrame.build_coauthorship_matrix, build_coauthorship_matrix.
  cbv zeta. unfold collect_pairs, fat_articles_of_frames.
  rewrite <- foldl_fmap_arg.
  erewrite (foldl_ext_fun (λ st group, DataFrame.group_step st group.2)); [done|].
  intros acc group. apply DataFrame_group_step.
Qed.

Lemma coo_matrix_no_KeyError data row col key :
  coo_matrix data row col ≠ Raise (KeyError key).
Proof.
  unfold coo_matrix. destruct row, col; try done; by case_match.
Qed.

Lemma DataFrame_build_no_KeyError author_list authorships key :
  DataFrame.build_coauthorship_matrix author_list authorships
  ≠ Raise (KeyError key).
Proof.
  unfold DataFrame.build_coauthorship_matrix. cbv zeta.
  destruct (coo_matrix _ _ _) as [c|e] eqn:E; [done|].
  cbn [mbind result_bind]. intros [= ->].
  by apply coo_matrix_no_KeyError in E.
Qed.

(** * The example inputs *)

Example chain_attached :
  attach_authors chain_articles four_authors chain_links = Ok chain_fat.
Proof. vm_compute. reflexivity. Qed.

Example chain_built : build_coauthorship_matrix chain_fat = Ok chain_graph.
Proof. vm_compute. reflexivity. Qed.

Example chain_built_from_frames :
  DataFrame.build_coauthorship_matrix four_authors chain_links = Ok chain_graph.
Proof. vm_compute. reflexivity. Qed.

Example chain_built_from_frames_orphan :
  DataFrame.build_coauthorship_matrix four_authors
    ({| author_orcid := "0000-0000-0000-000Q"; article_doi := "X" |}
     :: chain_links) = Ok chain_graph.
Proof. vm_compute. reflexivity. Qed.

Example joint_attached :
  attach_authors (joint_articles 3) four_authors (joint_links 3) = Ok (joint_fat 3).
Proof. vm_compute. reflexivity. Qed.

Example joint_built_2 : build_coauthorship_matrix (joint_fat 2) = Ok (joint_graph 2).
Proof. vm_compute. reflexivity. Qed.

Example joint_built_128 :
  build_coauthorship_matrix (joint_fat 128) = Ok (joint_graph (-128)).
Proof. vm_compute. reflexivity. Qed.


Lemma chain_graph_non_negative : non_negative chain_graph.
Proof. apply (bool_decide_unpack _). vm_compute. exact I. Qed.

Lemma chain_fat_distinct_orcids : distinct_orcids chain_fat.
Proof.
  intros a c Ha Hc. cbn in Ha, Hc.
  repeat (apply elem_of_cons in Ha as [->|Ha]);
    repeat (apply elem_of_cons in Hc as [->|Hc]);
    try (by apply not_elem_of_nil in Ha); try (by apply not_elem_of_nil in Hc);
    try done; discriminate.
Defined.

Lemma chain_fat_distinct_ids : distinct_ids chain_fat.
Proof.
  intros a c Ha Hc. cbn in Ha, Hc.
  repeat (apply elem_of_cons in Ha as [->|Ha]);
    repeat (apply elem_of_cons in Hc as [->|Hc]);
    try (by apply not_elem_of_nil in Ha); try (by apply not_elem_of_nil in Hc);
    try done; discriminate.
Defined.

(** * The claims *)

(** C1. The claim: erdos counts every edge as one hop whatever weight the
    edge stores, so two authors who appear together more than once are at
    distance 1.  The code runs the weighted search: with two joint articles
    of A and B, and also with one article on which A is linked twice, the
    stored weight of (0, 1) is 2 and erdos returns 2. *)
Theorem erdos_repeated_coauthors_distance_2 :
  pipeline [article_of "X"; article_of "Y"] four_authors
    [link author_A "X"; link author_B "X"; link author_A "Y"; link author_B "Y"]
    0 1 = Ok 2 ∧
  pipeline [article_of "X"] four_authors
    [link author_A "X"; link author_B "X"; link author_A "X"]
    0 1 = Ok 2.
Proof. split; vm_compute; reflexivity. Qed.

(** C2, counterexample.  The claim: construction raises the unknown-author
    error exactly when some authorship link's orcid has no author record.
    In [attach_authors] a link is looked up only under a listed article: the
    orphan link names an orcid no author has and a doi no article has, and
    the construction succeeds without it. *)
Lemma attach_authors_skips_orphan_link :
  orphan_link ∈ [link author_A "X"; link author_B "X"; orphan_link] ∧
  unknown_author four_authors orphan_link ∧
  attach_authors [article_of "X"] four_authors
    [link author_A "X"; link author_B "X"; orphan_link]
  = Ok [fat_of "X" [author_A; author_B]] ∧
  build_coauthorship_matrix [fat_of "X" [author_A; author_B]]
  = Ok (joint_graph 1).
Proof.
  split_and!.
  - right; right; left.
  - intros a Ha. unfold four_authors in Ha.
    repeat (apply elem_of_cons in Ha as [->|Ha]); try discriminate.
    by apply not_elem_of_nil in Ha.
  - vm_compute. reflexivity.
  - vm_compute. reflexivity.
Qed.

(** C2, amended.  [attach_authors] either raises KeyError for a link that
    is listed and whose author is unknown, or no such link exists and it
    returns one fat article per article, in order, whose attached authors
    are exactly the authors of the links with that doi, in order: no listed
    link is dropped.  A link that is not listed is never looked up. *)
Theorem attach_authors_unknown_author articles author_list authorships :
  (∃ l, l ∈ authorships ∧ listed articles l ∧ unknown_author author_list l ∧
        attach_authors articles author_list authorships
        = Raise (KeyError (author_orcid l)))
  ∨
  ((¬ ∃ l, l ∈ authorships ∧ listed articles l ∧ unknown_author author_list l) ∧
   ∃ fat_articles,
     attach_authors articles author_list authorships = Ok fat_articles ∧
     Forall2 (λ article fat,
                fat_doi fat = doi article ∧
                orcid <$> authors fat =
                author_orcid <$> filter (λ l, article_doi l = doi article)
                                        authorships)
             articles fat_articles).
Proof.
  unfold attach_authors.
  destruct (attach_articles _ _ articles []) as [r|e] eqn:E.
  - right. apply attach_articles_Ok in E as [Hall ->]. split.
    + intros (l & Hin & (article & Hart & Hdoi) & Hunk).
      rewrite Forall_forall in Hall. specialize (Hall _ Hart).
      rewrite authorships_by_doi_lookup, Forall_forall in Hall.
      destruct (Hall l) as [a Ha]; [by apply list_elem_of_filter|].
      unfold unknown_author in Hunk.
      apply author_by_orcid_None in Hunk. congruence.
    + eexists. split; [done|]. cbn [app].
      apply Forall2_fmap_r, Forall_Forall2_diag.
      rewrite Forall_forall in *. intros article Hart. split; [done|].
      cbn [authors fat_article_of].
      rewrite <- authorships_by_doi_lookup.
      apply looked_up_orcids; [|by apply Hall].
      intros o a Ha. by apply author_by_orcid_Some in Ha as [_ ?].
  - left. apply attach_articles_Raise in E as (article & l & Hart & Hl & Hnone & ->).
    rewrite authorships_by_doi_lookup in Hl.
    apply list_elem_of_filter in Hl as [Hdoi Hin].
    exists l. split_and!; [done | by exists article | | done].
    unfold unknown_author. by apply author_by_orcid_None.
Qed.

(** C3. The end-to-end example: authors A:0, B:1, C:2, D:3, article X by A
    and B, article Y by B and C.  The code gives distance(0,1) = 1,
    distance(0,2) = 2 and distance(1,1) = 0, but for distance(0,3) it raises
    IndexError instead of the no-path ValueError: the matrix has shape
    (3, 3), the largest id on an edge being 2. *)
Theorem pipeline_chain_example :
  pipeline chain_articles four_authors chain_links 0 1 = Ok 1 ∧
  pipeline chain_articles four_authors chain_links 0 2 = Ok 2 ∧
  pipeline chain_articles four_authors chain_links 1 1 = Ok 0 ∧
  pipeline chain_articles four_authors chain_links 0 3 = Raise IndexError.
Proof. split_and!; vm_compute; reflexivity. Qed.

(** C4. The claim: two authors with at least one joint article are at
    distance 1 in both directions.  With three joint articles of A and B the
    code returns 3 in both directions. *)
Theorem erdos_three_joint_articles_distance_3 :
  attach_authors (joint_articles 3) four_authors (joint_links 3) = Ok (joint_fat 3) ∧
  build_coauthorship_matrix (joint_fat 3) = Ok (joint_graph 3) ∧
  erdos (joint_graph 3) 0 1 = Ok 3 ∧
  erdos (joint_graph 3) 1 0 = Ok 3.
Proof. split_and!; vm_compute; reflexivity. Qed.




(** C6.  The claim: for distinct authors i and j the entry (i, j) of the
    built matrix is the number of their joint articles.  With 200 joint
    articles of A and B the number is 200 and the entry (0, 1) reads -56:
    the sum is kept in int8. *)
Theorem build_200_joint_articles_entry :
  (coauthorship ← build_coauthorship_matrix (joint_fat 200);
   getitem coauthorship 0 1) = Ok (-56) ∧
  joint_count (joint_fat 200) 0 1 = 200.
Proof. split; vm_compute; reflexivity. Qed.



(** C8. Every matrix that build_coauthorship_matrix returns is symmetric:
    the stored weight of (i, j) is the stored weight of (j, i), and reading
    the two entries gives the same result. *)
Theorem build_coauthorship_matrix_symmetric fat_articles coauthorship i j :
  build_coauthorship_matrix fat_articles = Ok coauthorship →
  stored coauthorship !! (i, j) = stored coauthorship !! (j, i) ∧
  getitem coauthorship i j = getitem coauthorship j i.
Proof.
  intros Hb. pose proof (built_square _ _ Hb) as Hsq.
  split; [by eapply built_stored_sym|].
  unfold getitem. rewrite <- Hsq.
  destruct (norm_index _ i) as [i'|e1] eqn:Ei,
           (norm_index _ j) as [j'|e2] eqn:Ej; cbn [mbind result_bind].
  - by rewrite (built_stored_sym _ _ _ _ Hb).
  - done.
  - done.
  - apply norm_index_Raise in Ei, Ej. congruence.
Qed.

(** C8, witness: the entries (1, 2) and (2, 1) of the chain graph. *)
Lemma build_coauthorship_matrix_symmetric_witness :
  build_coauthorship_matrix chain_fat = Ok chain_graph ∧
  stored chain_graph !! (1, 2) = stored chain_graph !! (2, 1) ∧
  getitem chain_graph 1 2 = getitem chain_graph 2 1.
Proof.
  split; [vm_compute; reflexivity|].
  apply (build_coauthorship_matrix_symmetric chain_fat chain_graph 1 2).
  vm_compute; reflexivity.
Defined.

(** C9, counterexample.  The claim: when each author has a distinct orcid,
    every diagonal entry is zero.  The loop skips a pair by comparing orcids
    and files it under the ids: two authors with distinct orcids and the
    same id 0 on one article give the entry (0, 0) the weight 2. *)
Lemma shared_id_gives_self_edge :
  distinct_orcids shared_id_fat ∧
  (coauthorship ← build_coauthorship_matrix shared_id_fat;
   getitem coauthorship 0 0) = Ok 2.
Proof.
  split; [|vm_compute; reflexivity].
  intros a c Ha Hc. cbn in Ha, Hc.
  repeat (apply elem_of_cons in Ha as [->|Ha]);
    repeat (apply elem_of_cons in Hc as [->|Hc]);
    try (by apply not_elem_of_nil in Ha); try (by apply not_elem_of_nil in Hc);
    try done; discriminate.
Qed.

(** C9, amended.  For every input in which each author has a distinct orcid
    and a distinct id, the built matrix has no self-edges: no diagonal
    position is stored and every diagonal entry within the shape reads 0. *)
Theorem build_no_self_edges fat_articles coauthorship i :
  distinct_orcids fat_articles → distinct_ids fat_articles →
  build_coauthorship_matrix fat_articles = Ok coauthorship →
  stored coauthorship !! (i, i) = None ∧
  (0 ≤ i < (shape coauthorship).1 → getitem coauthorship i i = Ok 0).
Proof.
  intros _ Hid Hb.
  assert (Hnone : stored coauthorship !! (i, i) = None).
  { rewrite (built_stored _ _ _ Hb). by rewrite no_diagonal_pairs. }
  split; [done|]. intros Hi. unfold getitem.
  rewrite <- (built_square _ _ Hb), norm_index_in_bounds by done.
  cbn [mbind result_bind]. by rewrite Hnone.
Qed.

(** C9, witness: the diagonal entry (1, 1) of the chain graph. *)
Lemma build_no_self_edges_witness :
  distinct_orcids chain_fat ∧ distinct_ids chain_fat ∧
  build_coauthorship_matrix chain_fat = Ok chain_graph ∧
  stored chain_graph !! (1, 1) = None ∧
  (0 ≤ 1 < (shape chain_graph).1 → getitem chain_graph 1 1 = Ok 0).
Proof.
  assert (Hb : build_coauthorship_matrix chain_fat = Ok chain_graph)
    by (vm_compute; reflexivity).
  split; [exact chain_fat_distinct_orcids|].
  split; [exact chain_fat_distinct_ids|].
  split; [exact Hb|].
  exact (build_no_self_edges chain_fat chain_graph 1
           chain_fat_distinct_orcids chain_fat_distinct_ids Hb).
Defined.

(** C10.  Weights are accumulated in int8: within the shape, the entry
    (i, j) reads as the number of times the ordered pair (i, j) was appended,
    reduced modulo 2^8 to the signed range.  With 128 joint articles of A and
    B the pair (0, 1) occurs 128 times, the stored weight is -128, and the
    matrix is not non-negative. *)
Theorem stored_weight_int8_wraps :
  (∀ fat_articles coauthorship i j,
     build_coauthorship_matrix fat_articles = Ok coauthorship →
     0 ≤ i < (shape coauthorship).1 → 0 ≤ j < (shape coauthorship).2 →
     getitem coauthorship i j = Ok (int8 (pair_count fat_articles i j))) ∧
  (∀ n, -128 ≤ int8 n ≤ 127 ∧ (int8 n) mod 256 = n mod 256) ∧
  (build_coauthorship_matrix (joint_fat 128) = Ok (joint_graph (-128)) ∧
   pair_count (joint_fat 128) 0 1 = 128 ∧
   stored (joint_graph (-128)) !! (0, 1) = Some (-128) ∧
   ¬ non_negative (joint_graph (-128))).
Proof.
  split_and!.
  - intros fat m i j Hb Hi Hj. unfold getitem.
    rewrite !norm_index_in_bounds by done. cbn [mbind result_bind].
    by rewrite (built_entry _ _ _ _ Hb).
  - intros n. split; [apply int8_range|]. unfold int8.
    rewrite Zminus_mod, Z.mod_mod by lia. change (128 mod 256) with 128.
    rewrite <- (Z.mod_small 128 256) at 2 by lia.
    rewrite <- Zminus_mod. f_equal. lia.
  - vm_compute. reflexivity.
  - vm_compute. reflexivity.
  - vm_compute. reflexivity.
  - intros Hnn. assert (H : 0 ≤ -128); [|lia].
    apply (Hnn (0, 1)). vm_compute. reflexivity.
Qed.

(** C10, witness: the entry (0, 1) after 128 joint articles. *)
Lemma stored_weight_int8_wraps_witness :
  build_coauthorship_matrix (joint_fat 128) = Ok (joint_graph (-128)) ∧
  0 ≤ 0 < (shape (joint_graph (-128))).1 ∧
  0 ≤ 1 < (shape (joint_graph (-128))).2 ∧
  getitem (joint_graph (-128)) 0 1 = Ok (int8 (pair_count (joint_fat 128) 0 1)).
Proof.
  assert (Hb : build_coauthorship_matrix (joint_fat 128) = Ok (joint_graph (-128)))
    by (vm_compute; reflexivity).
  assert (Hi : 0 ≤ 0 < (shape (joint_graph (-128))).1) by (cbn; lia).
  assert (Hj : 0 ≤ 1 < (shape (joint_graph (-128))).2) by (cbn; lia).
  split; [exact Hb|]. split; [exact Hi|]. split; [exact Hj|].
  exact (proj1 stored_weight_int8_wraps (joint_fat 128) (joint_graph (-128))
           0 1 Hb Hi Hj).
Defined.

(** * Further properties *)

(** ** The builder: errors, shape, order of the input *)

Lemma elem_of_pairs_of_author l author p :
  p ∈ pairs_of_author l author ↔
  ∃ c, c ∈ l ∧ orcid author ≠ orcid c ∧ p = (id author, id c).
Proof.
  unfold pairs_of_author. rewrite list_elem_of_bind. split.
  - intros (c & Hp & Hc). exists c. split; [done|].
    destruct (String.eqb (orcid author) (orcid c)) eqn:E.
    + by apply not_elem_of_nil in Hp.
    + apply String.eqb_neq in E. by apply list_elem_of_singleton in Hp.
  - intros (c & Hc & Hne & ->). exists c. split; [|done].
    apply String.eqb_neq in Hne. rewrite Hne. by apply list_elem_of_singleton.
Qed.

Lemma elem_of_coauthor_pairs fat_articles i j :
  (i, j) ∈ coauthor_pairs fat_articles ↔ coauthors_on fat_articles i j.
Proof.
  unfold coauthor_pairs, coauthors_on, pairs_of_article.
  rewrite list_elem_of_bind. split.
  - intros (article & Hp & Hart).
    apply list_elem_of_bind in Hp as (a & Hp & Ha).
    apply elem_of_pairs_of_author in Hp as (c & Hc & Hne & [= -> ->]).
    by exists article, a, c.
  - intros (article & a & c & Hart & Ha & Hc & Hne & <- & <-).
    exists article. split; [|done]. apply list_elem_of_bind.
    exists a. split; [|done]. apply elem_of_pairs_of_author. by exists c.
Qed.

Lemma list_min_same_elements (l1 l2 : list Z) :
  l1 ≠ [] → (∀ x, x ∈ l1 ↔ x ∈ l2) → list_min l1 = list_min l2.
Proof.
  intros Hne Heq.
  assert (Hne2 : l2 ≠ []).
  { destruct l1 as [|x l1]; [done|]. intros ->.
    eapply not_elem_of_nil, Heq. left. }
  pose proof (list_min_elem l1 Hne) as H1.
  pose proof (list_min_elem l2 Hne2) as H2.
  apply Heq in H1. apply Heq in H2.
  apply list_min_le in H1. apply list_min_le in H2. lia.
Qed.

Lemma occurrences_Permutation k l1 l2 :
  l1 ≡ₚ l2 → occurrences k l1 = occurrences k l2.
Proof. intros H. unfold occurrences. by rewrite H. Qed.

(** The build reads the appended pairs only up to their order. *)
Lemma build_pairs_Permutation fat1 fat2 :
  coauthor_pairs fat1 ≡ₚ coauthor_pairs fat2 →
  build_coauthorship_matrix fat1 = build_coauthorship_matrix fat2.
Proof.
  intros Hperm.
  assert (Hin : ∀ p, p ∈ coauthor_pairs fat1 ↔ p ∈ coauthor_pairs fat2).
  { intros p. by rewrite Hperm. }
  destruct (build_coauthorship_matrix fat1) as [m1|e1] eqn:E1,
           (build_coauthorship_matrix fat2) as [m2|e2] eqn:E2.
  - f_equal.
    pose proof (λ k, built_stored _ _ k E1) as Hs1.
    pose proof (λ k, built_stored _ _ k E2) as Hs2.
    apply build_coauthorship_matrix_spec in E1 as (Hne1 & _ & Hsh1 & _).
    apply build_coauthorship_matrix_spec in E2 as (_ & _ & Hsh2 & _).
    destruct m1 as [sh1 st1], m2 as [sh2 st2]. cbn [shape stored] in *.
    f_equal.
    + rewrite Hsh1, Hsh2. f_equal; f_equal.
      * apply list_max_same_elements.
        -- by destruct (coauthor_pairs fat1).
        -- intros x. by rewrite Hperm.
      * apply list_max_same_elements.
        -- by destruct (coauthor_pairs fat1).
        -- intros x. by rewrite Hperm.
    + apply map_eq. intros k. rewrite Hs1, Hs2.
      by rewrite (occurrences_Permutation k _ _ Hperm).
  - exfalso.
    apply build_coauthorship_matrix_spec in E1 as (Hne1 & Hpos & _).
    apply build_coauthorship_matrix_Raise in E2 as [[_ Hnil]|[_ (p & Hp & Hneg)]].
    + rewrite Hnil in Hperm. by apply Permutation_nil_r in Hperm.
    + apply Hin, Hpos in Hp. lia.
  - exfalso.
    apply build_coauthorship_matrix_spec in E2 as (Hne2 & Hpos & _).
    apply build_coauthorship_matrix_Raise in E1 as [[_ Hnil]|[_ (p & Hp & Hneg)]].
    + rewrite Hnil in Hperm. by apply Permutation_nil_l in Hperm.
    + apply Hin, Hpos in Hp. lia.
  - f_equal.
    apply build_coauthorship_matrix_Raise in E1 as [[-> Hnil1]|[-> (p & Hp & _)]];
      apply build_coauthorship_matrix_Raise in E2 as [[-> Hnil2]|[-> (q & Hq & _)]];
      try done.
    + rewrite Hnil1 in Hin. apply Hin in Hq. by apply not_elem_of_nil in Hq.
    + rewrite Hnil2 in Hin. apply Hin in Hp. by apply not_elem_of_nil in Hp.
Qed.

Lemma bind_Permutation_pointwise {A B : Type} (f h : A → list B) (l : list A) :
  (∀ x, x ∈ l → f x ≡ₚ h x) → l ≫= f ≡ₚ l ≫= h.
Proof.
  induction l as [|x l IH]; intros H; [done|].
  rewrite !bind_cons. f_equiv; [apply H; left|].
  apply IH. intros y Hy. apply H. by right.
Qed.

Lemma pairs_of_article_Permutation x y :
  authors x ≡ₚ authors y → pairs_of_article x ≡ₚ pairs_of_article y.
Proof.
  intros H. unfold pairs_of_article.
  trans (authors y ≫= pairs_of_author (authors x)).
  - by apply bind_Permutation.
  - apply bind_Permutation_pointwise. intros a _.
    unfold pairs_of_author. by apply bind_Permutation.
Qed.

Lemma coauthor_pairs_app fat1 fat2 :
  coauthor_pairs (fat1 ++ fat2) = coauthor_pairs fat1 ++ coauthor_pairs fat2.
Proof. unfold coauthor_pairs. apply bind_app. Qed.


Lemma build_outcome_cases fat_articles :
  (∃ m, build_coauthorship_matrix fat_articles = Ok m) ∨
  build_coauthorship_matrix fat_articles = Raise (ValueError ZeroSizedIndex) ∨
  build_coauthorship_matrix fat_articles = Raise (ValueError NegativeIndex).
Proof.
  destruct (build_coauthorship_matrix fat_articles) as [m|e] eqn:E; [eauto|].
  apply build_coauthorship_matrix_Raise in E as [[-> _]|[-> _]]; auto.
Qed.

(** X1.  The built matrix, or the error raised instead, depends neither on
    the order of the articles nor on the order of the authors within an
    article (nor on the articles' doi, title and date). *)
Theorem build_order_irrelevant fat1 fat' fat2 :
  fat1 ≡ₚ fat' →
  Forall2 (λ x y, authors x ≡ₚ authors y) fat' fat2 →
  build_coauthorship_matrix fat1 = build_coauthorship_matrix fat2.
Proof.
  intros Hperm Hall. apply build_pairs_Permutation.
  trans (coauthor_pairs fat').
  - unfold coauthor_pairs. by apply bind_Permutation.
  - clear Hperm. unfold coauthor_pairs.
    induction Hall as [|x y l1 l2 Hxy _ IH]; [done|].
    rewrite !bind_cons. f_equiv; [by apply pairs_of_article_Permutation | done].
Qed.

(** X1, witness: the chain articles in the other order, the authors of each
    swapped, under other dois. *)
Lemma build_order_irrelevant_witness :
  chain_fat ≡ₚ reverse chain_fat ∧
  Forall2 (λ x y, authors x ≡ₚ authors y) (reverse chain_fat)
    [fat_of "Q" [author_C; author_B]; fat_of "P" [author_B; author_A]] ∧
  build_coauthorship_matrix chain_fat =
  build_coauthorship_matrix
    [fat_of "Q" [author_C; author_B]; fat_of "P" [author_B; author_A]].
Proof.
  assert (H1 : chain_fat ≡ₚ reverse chain_fat) by apply perm_swap.
  assert (H2 : Forall2 (λ x y, authors x ≡ₚ authors y) (reverse chain_fat)
            [fat_of "Q" [author_C; author_B]; fat_of "P" [author_B; author_A]]).
  { repeat constructor; apply perm_swap. }
  split; [exact H1|]. split; [exact H2|].
  exact (build_order_irrelevant _ _ _ H1 H2).
Defined.

(** X2.  The build raises the zero-sized-index ValueError exactly when no
    article has two authors with different orcids: on no articles at all,
    and on articles of a single author each. *)
Theorem build_raises_without_coauthors fat_articles :
  build_coauthorship_matrix fat_articles = Raise (ValueError ZeroSizedIndex) ↔
  (∀ article a c, article ∈ fat_articles →
     a ∈ authors article → c ∈ authors article → orcid a = orcid c).
Proof.
  split.
  - intros E article a c Hart Ha Hc.
    destruct (decide (orcid a = orcid c)) as [|Hne]; [done|exfalso].
    apply build_coauthorship_matrix_Raise in E as [[_ Hnil]|[[=] _]].
    assert (Hin : (id a, id c) ∈ coauthor_pairs fat_articles).
    { apply elem_of_coauthor_pairs. by exists article, a, c. }
    rewrite Hnil in Hin. by apply not_elem_of_nil in Hin.
  - intros Hall.
    assert (Hnil : coauthor_pairs fat_articles = []).
    { destruct (coauthor_pairs fat_articles) as [|[i j] ps] eqn:E; [done|].
      assert (Hin : (i, j) ∈ coauthor_pairs fat_articles) by (rewrite E; left).
      apply elem_of_coauthor_pairs in Hin
        as (article & a & c & Hart & Ha & Hc & Hne & _).
      by specialize (Hall _ _ _ Hart Ha Hc). }
    destruct (build_outcome_cases fat_articles) as [[m E]|[E|E]]; [|done|].
    + apply build_coauthorship_matrix_spec in E as (Hne & _). done.
    + apply build_coauthorship_matrix_Raise in E
        as [[[=] _]|[_ (p & Hp & _)]].
      rewrite Hnil in Hp. by apply not_elem_of_nil in Hp.
Qed.



(** X4.  The built matrix is square and one larger than the largest id of an
    author who has a coauthor; the ids of authors without a coauthor, and the
    number of authors, play no part. *)
Theorem build_shape fat_articles coauthorship :
  build_coauthorship_matrix fat_articles = Ok coauthorship →
  ∃ i j, coauthors_on fat_articles i j ∧
         shape coauthorship = (i + 1, i + 1) ∧
         ∀ i' j', coauthors_on fat_articles i' j' → 0 ≤ i' ≤ i.
Proof.
  intros Hb. pose proof (built_square _ _ Hb) as Hsq.
  pose proof Hb as (Hne & Hpos & Hsh & _)%build_coauthorship_matrix_spec.
  rewrite Hsh in Hsq. cbn in Hsq.
  assert (Hmax : list_max (coauthor_pairs fat_articles).*1
                 ∈ (coauthor_pairs fat_articles).*1).
  { apply list_max_elem. by destruct (coauthor_pairs fat_articles). }
  apply list_elem_of_fmap in Hmax as ([i j] & Hi & Hp). cbn in Hi.
  exists i, j. split_and!.
  - by apply elem_of_coauthor_pairs.
  - rewrite Hsh. f_equal; lia.
  - intros i' j' Hc. apply elem_of_coauthor_pairs in Hc.
    split; [apply Hpos in Hc; cbn in Hc; lia|]. rewrite <- Hi.
    apply list_max_ge, list_elem_of_fmap. by exists (i', j').
Qed.

(** X4, witness: the chain articles; the largest id with a coauthor is 2. *)
Lemma build_shape_witness :
  build_coauthorship_matrix chain_fat = Ok chain_graph ∧
  ∃ i j, coauthors_on chain_fat i j ∧
         shape chain_graph = (i + 1, i + 1) ∧
         ∀ i' j', coauthors_on chain_fat i' j' → 0 ≤ i' ≤ i.
Proof.
  assert (Hb : build_coauthorship_matrix chain_fat = Ok chain_graph)
    by (vm_compute; reflexivity).
  split; [exact Hb|]. exact (build_shape chain_fat chain_graph Hb).
Defined.

(** X5.  An article whose authors all have the same orcid (a single author,
    or none) changes nothing: the build with it is the build without it. *)
Theorem build_ignores_single_author_article fat1 article fat2 :
  (∀ a c, a ∈ authors article → c ∈ authors article → orcid a = orcid c) →
  build_coauthorship_matrix (fat1 ++ article :: fat2) =
  build_coauthorship_matrix (fat1 ++ fat2).
Proof.
  intros Hall. apply build_pairs_Permutation.
  assert (Hnil : pairs_of_article article = []).
  { destruct (pairs_of_article article) as [|p ps] eqn:E; [done|exfalso].
    assert (Hin : p ∈ pairs_of_article article) by (rewrite E; left).
    unfold pairs_of_article in Hin.
    apply list_elem_of_bind in Hin as (a & Hp & Ha).
    apply elem_of_pairs_of_author in Hp as (c & Hc & Hne & _).
    by specialize (Hall _ _ Ha Hc). }
  rewrite !coauthor_pairs_app. unfold coauthor_pairs at 2.
  rewrite bind_cons, Hnil. done.
Qed.

(** X5, witness: the chain articles with an article of D alone between
    them. *)
Lemma build_ignores_single_author_article_witness :
  (∀ a c, a ∈ authors (fat_of "Z" [author_D]) →
          c ∈ authors (fat_of "Z" [author_D]) → orcid a = orcid c) ∧
  build_coauthorship_matrix
    ([fat_of "X" [author_A; author_B]] ++ fat_of "Z" [author_D]
       :: [fat_of "Y" [author_B; author_C]]) =
  build_coauthorship_matrix
    ([fat_of "X" [author_A; author_B]] ++ [fat_of "Y" [author_B; author_C]]).
Proof.
  assert (H : ∀ a c, a ∈ authors (fat_of "Z" [author_D]) →
                     c ∈ authors (fat_of "Z" [author_D]) → orcid a = orcid c).
  { cbn. intros a c Ha%list_elem_of_singleton Hc%list_elem_of_singleton.
    by subst. }
  split; [exact H|].
  exact (build_ignores_single_author_article _ _ _ H).
Defined.

(** ** erdos: symmetry, triangle inequality, hops, isolated nodes, bounds *)

Lemma path_source_node g a b c : path g a b c → is_node g a.
Proof. by induction 1. Qed.

Lemma path_trans g a b d c1 c2 :
  path g a b c1 → path g b d c2 → path g a d (c1 + c2).
Proof.
  intros Hab. induction 1 as [|u v c w _ IH He].
  - by rewrite Z.add_0_r.
  - rewrite Z.add_assoc. by econstructor.
Qed.

Lemma path_edge g a b w : is_node g a → edge g a b w → path g a b w.
Proof.
  intros Ha He. replace w with (0 + w) by lia.
  econstructor; [by constructor | done].
Qed.

(** In a graph stored symmetrically a path can be walked backwards. *)
Lemma path_rev g a b c :
  well_formed g → (∀ i j, stored g !! (i, j) = stored g !! (j, i)) →
  path g a b c → path g b a c.
Proof.
  intros Hwf Hsym. induction 1 as [|u v c w Hp IH He]; [by constructor|].
  assert (Hv : is_node g v).
  { destruct Hwf as [_ Hin]. apply Hin in He. cbn in He. unfold is_node. lia. }
  assert (He' : edge g v u w) by (unfold edge in *; by rewrite Hsym).
  rewrite Z.add_comm. eapply path_trans; [by apply path_edge | done].
Qed.

Lemma erdos_symmetric g a b :
  well_formed g → non_negative g →
  (∀ i j, stored g !! (i, j) = stored g !! (j, i)) →
  is_node g a → is_node g b →
  erdos g a b = erdos g b a.
Proof.
  intros Hwf Hnn Hsym Ha Hb.
  rewrite !erdos_in_bounds by (done || apply Hwf).
  destruct (scanned (dijkstra_run g a) !! b) as [d1|] eqn:E1,
           (scanned (dijkstra_run g b) !! a) as [d2|] eqn:E2.
  - apply dijkstra_run_min in E1 as (_ & Hp1 & Hmin1); [|done..].
    apply dijkstra_run_min in E2 as (_ & Hp2 & Hmin2); [|done..].
    apply path_rev in Hp1 as Hp1'; [|done..].
    apply path_rev in Hp2 as Hp2'; [|done..].
    apply Hmin1 in Hp2'. apply Hmin2 in Hp1'. f_equal. lia.
  - apply dijkstra_run_min in E1 as (_ & Hp1 & _); [|done..].
    apply path_rev in Hp1; [|done..].
    by apply dijkstra_run_unreached in Hp1.
  - apply dijkstra_run_min in E2 as (_ & Hp2 & _); [|done..].
    apply path_rev in Hp2; [|done..].
    by apply dijkstra_run_unreached in Hp2.
  - done.
Qed.

(** X6.  On a built matrix without a negative weight, erdos is symmetric:
    for ids within the shape, erdos(m, i, j) and erdos(m, j, i) return the
    same number or both raise the no-path ValueError. *)
Theorem erdos_symmetric_on_built fat_articles coauthorship i j :
  build_coauthorship_matrix fat_articles = Ok coauthorship →
  non_negative coauthorship →
  0 ≤ i < (shape coauthorship).1 → 0 ≤ j < (shape coauthorship).1 →
  erdos coauthorship i j = erdos coauthorship j i.
Proof.
  intros Hb Hnn Hi Hj. apply erdos_symmetric; try done.
  - by eapply built_well_formed.
  - intros x y. by eapply built_stored_sym.
Qed.

(** X6, witness: the nodes 0 and 2 of the chain graph. *)
Lemma erdos_symmetric_on_built_witness :
  build_coauthorship_matrix chain_fat = Ok chain_graph ∧
  non_negative chain_graph ∧
  0 ≤ 0 < (shape chain_graph).1 ∧ 0 ≤ 2 < (shape chain_graph).1 ∧
  erdos chain_graph 0 2 = erdos chain_graph 2 0.
Proof.
  assert (Hb : build_coauthorship_matrix chain_fat = Ok chain_graph)
    by (vm_compute; reflexivity).
  assert (Hnn : non_negative chain_graph).
  { apply (bool_decide_unpack _). vm_compute. exact I. }
  assert (H0 : 0 ≤ 0 < (shape chain_graph).1) by (cbn; lia).
  assert (H2 : 0 ≤ 2 < (shape chain_graph).1) by (cbn; lia).
  split; [exact Hb|]. split; [exact Hnn|]. split; [exact H0|]. split; [exact H2|].
  exact (erdos_symmetric_on_built chain_fat chain_graph 0 2 Hb Hnn H0 H2).
Defined.



Lemma unit_weights_non_negative g : unit_weights g → non_negative g.
Proof. intros H k w Hw. apply H in Hw. lia. Qed.

Lemma positive_weights_non_negative g : positive_weights g → non_negative g.
Proof. intros H k w Hw. apply H in Hw. lia. Qed.

Lemma path_hops g a b c :
  unit_weights g → path g a b c → ∃ n, hops g a b n ∧ c = Z.of_nat n.
Proof.
  intros Hu. induction 1 as [|u v c w _ (n & Hn & ->) He].
  - exists 0%nat. split; [by constructor | done].
  - exists (S n). split; [by econstructor|]. apply Hu in He. lia.
Qed.

Lemma hops_path g a b n :
  unit_weights g → hops g a b n → path g a b (Z.of_nat n).
Proof.
  intros Hu. induction 1 as [|u v n w _ IH He]; [by constructor|].
  pose proof (Hu _ _ He) as Hw. cbn in Hw.
  replace (Z.of_nat (S n)) with (Z.of_nat n + w) by lia. by econstructor.
Qed.

(** X8.  Where every stored weight is 1, erdos returns the Erdos number:
    for ids within the bounds, the least number of edges of a path from the
    one to the other, or the no-path ValueError when there is no path. *)
Theorem erdos_counts_hops g id_a id_b :
  well_formed g → unit_weights g → is_node g id_a → is_node g id_b →
  (∃ n, erdos g id_a id_b = Ok (Z.of_nat n) ∧ hops g id_a id_b n ∧
        ∀ n', hops g id_a id_b n' → (n ≤ n')%nat)
  ∨
  (erdos g id_a id_b = Raise (ValueError NoPath) ∧ ∀ n, ¬ hops g id_a id_b n).
Proof.
  intros Hwf Hu Ha Hb. pose proof (unit_weights_non_negative _ Hu) as Hnn.
  rewrite erdos_in_bounds by (done || apply Hwf).
  destruct (scanned (dijkstra_run g id_a) !! id_b) as [d|] eqn:E.
  - left. apply dijkstra_run_min in E as (_ & Hp & Hmin); [|done..].
    destruct (path_hops _ _ _ _ Hu Hp) as (n & Hn & ->).
    exists n. split_and!; [done..|].
    intros n' Hn'. apply hops_path, Hmin in Hn'; [lia | done].
  - right. split; [done|]. intros n Hn. apply hops_path in Hn; [|done].
    by apply dijkstra_run_unreached in Hn.
Qed.

(** X8, witness: from node 0 to node 2 of the chain graph. *)
Lemma erdos_counts_hops_witness :
  well_formed chain_graph ∧ unit_weights chain_graph ∧
  is_node chain_graph 0 ∧ is_node chain_graph 2 ∧
  ((∃ n, erdos chain_graph 0 2 = Ok (Z.of_nat n) ∧ hops chain_graph 0 2 n ∧
         ∀ n', hops chain_graph 0 2 n' → (n ≤ n')%nat)
   ∨
   (erdos chain_graph 0 2 = Raise (ValueError NoPath) ∧
    ∀ n, ¬ hops chain_graph 0 2 n)).
Proof.
  assert (Hwf : well_formed chain_graph).
  { split; [reflexivity|]. apply (bool_decide_unpack _). vm_compute. exact I. }
  assert (Hu : unit_weights chain_graph).
  { apply (bool_decide_unpack _). vm_compute. exact I. }
  assert (H0 : is_node chain_graph 0) by (unfold is_node; cbn; lia).
  assert (H2 : is_node chain_graph 2) by (unfold is_node; cbn; lia).
  split; [exact Hwf|]. split; [exact Hu|]. split; [exact H0|]. split; [exact H2|].
  exact (erdos_counts_hops chain_graph 0 2 Hwf Hu H0 H2).
Defined.

(** X9.  On a built matrix whose stored weights are all at least 1, two
    authors with different ids who share an article are joined by an edge,
    and erdos returns a distance between 1 and the weight of that edge:
    exactly 1 when the weight is 1. *)
Theorem erdos_coauthors_distance fat_articles coauthorship i j :
  build_coauthorship_matrix fat_articles = Ok coauthorship →
  positive_weights coauthorship →
  coauthors_on fat_articles i j → i ≠ j →
  ∃ w d, stored coauthorship !! (i, j) = Some w ∧
         erdos coauthorship i j = Ok d ∧ 1 ≤ d ≤ w.
Proof.
  intros Hb Hpos Hc Hij.
  apply elem_of_coauthor_pairs, occurrences_pos in Hc.
  pose proof (built_stored _ _ (i, j) Hb) as Hs.
  destruct (occurrences _ _) as [|n]; [lia|].
  destruct (erdos_edge_bounds coauthorship i j (int8 (Z.of_nat (S n))))
    as (d & Hd & Hle); [by eapply built_well_formed | | done | done |].
  - intros u v w He. by apply Hpos in He.
  - eauto.
Qed.

Lemma chain_coauthors_0_1 : coauthors_on chain_fat 0 1.
Proof.
  exists (fat_of "X" [author_A; author_B]), author_A, author_B.
  split_and!; [left | left | right; left | discriminate | done | done].
Defined.

(** X9, witness: A and B on the chain articles. *)
Lemma erdos_coauthors_distance_witness :
  build_coauthorship_matrix chain_fat = Ok chain_graph ∧
  positive_weights chain_graph ∧
  coauthors_on chain_fat 0 1 ∧ 0 ≠ 1 ∧
  ∃ w d, stored chain_graph !! (0, 1) = Some w ∧
         erdos chain_graph 0 1 = Ok d ∧ 1 ≤ d ≤ w.
Proof.
  assert (Hb : build_coauthorship_matrix chain_fat = Ok chain_graph)
    by (vm_compute; reflexivity).
  assert (Hpos : positive_weights chain_graph).
  { apply (bool_decide_unpack _). vm_compute. exact I. }
  assert (Hne : 0 ≠ 1) by lia.
  split; [exact Hb|]. split; [exact Hpos|].
  split; [exact chain_coauthors_0_1|]. split; [exact Hne|].
  exact (erdos_coauthors_distance chain_fat chain_graph 0 1 Hb Hpos
           chain_coauthors_0_1 Hne).
Defined.

(** X10.  Where every stored weight is at least 1, erdos returns 0 only for
    an author and themselves. *)
Theorem erdos_zero_iff_same g id_a id_b :
  well_formed g → positive_weights g → is_node g id_a → is_node g id_b →
  (erdos g id_a id_b = Ok 0 ↔ id_a = id_b).
Proof.
  intros Hwf Hpos Ha Hb.
  pose proof (positive_weights_non_negative _ Hpos) as Hnn.
  rewrite erdos_in_bounds by (done || apply Hwf). split.
  - destruct (scanned (dijkstra_run g id_a) !! id_b) as [d|] eqn:E; [|done].
    intros [= ->]. apply dijkstra_run_min in E as (_ & Hp & _); [|done..].
    destruct (decide (id_a = id_b)) as [|Hne]; [done|exfalso].
    eapply path_cost_positive in Hp; [lia | | done].
    intros u v w He. by apply Hpos in He.
  - intros <-. by rewrite dijkstra_run_source.
Qed.

(** X10, witness: node 1 of the chain graph. *)
Lemma erdos_zero_iff_same_witness :
  well_formed chain_graph ∧ positive_weights chain_graph ∧
  is_node chain_graph 1 ∧ is_node chain_graph 1 ∧
  (erdos chain_graph 1 1 = Ok 0 ↔ 1 = 1).
Proof.
  assert (Hwf : well_formed chain_graph).
  { split; [reflexivity|]. apply (bool_decide_unpack _). vm_compute. exact I. }
  assert (Hpos : positive_weights chain_graph).
  { apply (bool_decide_unpack _). vm_compute. exact I. }
  assert (H1 : is_node chain_graph 1) by (unfold is_node; cbn; lia).
  split; [exact Hwf|]. split; [exact Hpos|]. split; [exact H1|]. split; [exact H1|].
  exact (erdos_zero_iff_same chain_graph 1 1 Hwf Hpos H1 H1).
Defined.

(** Every value of a run of the embedded loop is the cost of a path from
    the source. *)
Lemma dijkstra_step_reachable g s st :
  disjoint_state st →
  (∀ v d, known st v d → path g s v d) →
  ∀ v d, known (dijkstra_step g st) v d → path g s v d.
Proof.
  intros Hdis Hpath.
  destruct (remove_min (heap st)) as [[v t]|] eqn:Emin; cycle 1.
  { apply remove_min_None in Emin. by rewrite dijkstra_step_empty. }
  rewrite (dijkstra_step_pop _ _ _ _ Emin).
  apply remove_min_Some in Emin as [Hv _].
  assert (Hvpath : path g s v t) by (apply Hpath; by right).
  intros x d [H|H].
  - rewrite foldl_relax_scanned in H. cbn in H.
    destruct (decide (v = x)) as [->|Hne].
    + rewrite lookup_insert_eq in H. by injection H as <-.
    + rewrite lookup_insert_ne in H by done. apply Hpath. by left.
  - apply foldl_relax_heap_origin in H as [H|(w & He & -> & _)].
    + cbn in H. destruct (decide (v = x)) as [->|Hne].
      * by rewrite lookup_delete_eq in H.
      * rewrite lookup_delete_ne in H by done. apply Hpath. by right.
    + apply elem_of_row in He. by econstructor.
Qed.

Lemma dijkstra_run_reachable g s v d :
  is_node g s → scanned (dijkstra_run g s) !! v = Some d → path g s v d.
Proof.
  intros Hs H. unfold dijkstra_run in H.
  assert (Hall : ∀ k v d,
            known (Nat.iter k (dijkstra_step g) (dijkstra_init s)) v d →
            path g s v d).
  { induction k as [|k IH].
    - intros x c [Hx|Hx]; cbn in Hx; [by rewrite lookup_empty in Hx|].
      apply lookup_singleton_Some in Hx as [<- <-]. by constructor.
    - cbn [Nat.iter nat_rect]. apply dijkstra_step_reachable; [|done].
      apply dijkstra_iter_disjoint. }
  eapply Hall. by left.
Qed.

(** A path between two different nodes leaves the first by an edge and
    enters the second by an edge. *)
Lemma path_first_last g a b c :
  path g a b c → a ≠ b →
  (∃ j w, edge g a j w) ∧ (∃ u w, edge g u b w).
Proof.
  induction 1 as [|u v c w Hp IH He]; [done|]. intros Hne. split; [|eauto].
  destruct (decide (a = u)) as [->|Hau]; [eauto|]. by apply IH.
Qed.

(** X12.  An author within the matrix who has no coauthor is unreachable:
    for two different ids within the bounds of a square matrix, erdos raises
    the no-path ValueError if no stored position lies in the row of the
    source (the search then scans the source alone, whatever the weights
    elsewhere), or if no stored weight is negative and no stored position
    lies in the column of the target. *)
Theorem erdos_isolated_node g id_a id_b :
  (shape g).1 = (shape g).2 → is_node g id_a → is_node g id_b →
  id_a ≠ id_b →
  no_edge_from g id_a ∨ (non_negative g ∧ no_edge_to g id_b) →
  erdos g id_a id_b = Raise (ValueError NoPath).
Proof.
  intros Hsq Ha Hb Hne Hiso. rewrite erdos_in_bounds by done.
  destruct (scanned (dijkstra_run g id_a) !! id_b) as [x|] eqn:E; [exfalso|done].
  apply dijkstra_run_reachable in E; [|done].
  apply path_first_last in E as [(j & w & He1) (u & w' & He2)]; [|done].
  destruct Hiso as [Hiso|[_ Hiso]].
  - by apply Hiso in He1.
  - by apply Hiso in He2.
Qed.

Example gap_built : build_coauthorship_matrix gap_fat = Ok gap_graph.
Proof. vm_compute. reflexivity. Qed.

(** X12, witness: article X by A (id 0) and C (id 2); the node 1 has no
    edge. *)
Lemma erdos_isolated_node_witness :
  (shape gap_graph).1 = (shape gap_graph).2 ∧
  is_node gap_graph 0 ∧ is_node gap_graph 1 ∧ 0 ≠ 1 ∧
  (no_edge_from gap_graph 0 ∨ (non_negative gap_graph ∧ no_edge_to gap_graph 1)) ∧
  erdos gap_graph 0 1 = Raise (ValueError NoPath).
Proof.
  assert (Hsq : (shape gap_graph).1 = (shape gap_graph).2) by reflexivity.
  assert (H0 : is_node gap_graph 0) by (unfold is_node; cbn; lia).
  assert (H1 : is_node gap_graph 1) by (unfold is_node; cbn; lia).
  assert (Hne : 0 ≠ 1) by lia.
  assert (Hiso : no_edge_from gap_graph 0
                 ∨ (non_negative gap_graph ∧ no_edge_to gap_graph 1)).
  { right. split; apply (bool_decide_unpack _); vm_compute; exact I. }
  split; [exact Hsq|]. split; [exact H0|]. split; [exact H1|].
  split; [exact Hne|]. split; [exact Hiso|].
  exact (erdos_isolated_node gap_graph 0 1 Hsq H0 H1 Hne Hiso).
Defined.

(** X13.  Ids beyond the bounds of a square matrix with N rows: a source
    id that is an int32 value below -N or from N on makes erdos raise the
    indices-out-of-range ValueError of the search, before any edge is read;
    on a matrix without a negative stored weight and with a source within
    the bounds, a target id below -N or from N on makes it raise
    IndexError, not the no-path ValueError. *)
Theorem erdos_out_of_bounds g id_a id_b :
  (shape g).1 = (shape g).2 →
  (int32_range id_a → id_a < - (shape g).1 ∨ (shape g).1 ≤ id_a →
   erdos g id_a id_b = Raise (ValueError IndicesOutOfRange)) ∧
  (non_negative g → is_node g id_a →
   id_b < - (shape g).1 ∨ (shape g).1 ≤ id_b →
   erdos g id_a id_b = Raise IndexError).
Proof.
  intros Hsq. split.
  - intros _. by apply erdos_source_out_of_bounds.
  - intros _. by apply erdos_target_out_of_bounds.
Qed.

(** X13, witness: the ids 5 and 3 on the chain graph of three nodes. *)
Lemma erdos_out_of_bounds_witness :
  (shape chain_graph).1 = (shape chain_graph).2 ∧
  erdos chain_graph 5 0 = Raise (ValueError IndicesOutOfRange) ∧
  erdos chain_graph 0 3 = Raise IndexError.
Proof.
  assert (Hsq : (shape chain_graph).1 = (shape chain_graph).2) by reflexivity.
  split; [exact Hsq|]. split.
  - apply (proj1 (erdos_out_of_bounds chain_graph 5 0 Hsq)).
    + unfold int32_range. lia.
    + cbn. lia.
  - apply (proj2 (erdos_out_of_bounds chain_graph 0 3 Hsq)).
    + apply (bool_decide_unpack _). vm_compute. exact I.
    + unfold is_node. cbn. lia.
    + cbn. lia.
Defined.

(** X14.  Negative ids count from the end: on a square matrix with N rows,
    for ids from -N to -1, erdos(m, a, b) is erdos(m, a + N, b + N). *)
Theorem erdos_negative_ids_wrap g id_a id_b :
  (shape g).1 = (shape g).2 →
  - (shape g).1 ≤ id_a < 0 → - (shape g).1 ≤ id_b < 0 →
  erdos g id_a id_b = erdos g (id_a + (shape g).1) (id_b + (shape g).1).
Proof.
  intros Hsq Ha Hb. rewrite erdos_negative_source by done.
  apply erdos_negative_target; [done | unfold is_node; lia | done].
Qed.

(** X14, witness: the ids -3 and -1 on the chain graph of three nodes. *)
Lemma erdos_negative_ids_wrap_witness :
  (shape chain_graph).1 = (shape chain_graph).2 ∧
  - (shape chain_graph).1 ≤ -3 < 0 ∧ - (shape chain_graph).1 ≤ -1 < 0 ∧
  erdos chain_graph (-3) (-1) =
  erdos chain_graph (-3 + (shape chain_graph).1) (-1 + (shape chain_graph).1).
Proof.
  assert (Hsq : (shape chain_graph).1 = (shape chain_graph).2) by reflexivity.
  assert (Ha : - (shape chain_graph).1 ≤ -3 < 0) by (cbn; lia).
  assert (Hb : - (shape chain_graph).1 ≤ -1 < 0) by (cbn; lia).
  split; [exact Hsq|]. split; [exact Ha|]. split; [exact Hb|].
  exact (erdos_negative_ids_wrap chain_graph (-3) (-1) Hsq Ha Hb).
Defined.

(** ** attach_authors: which record, which links, which error *)

Lemma author_by_orcid_fold_other (l : list Author) (m : gmap string Author) o :
  (∀ x, x ∈ l → orcid x ≠ o) →
  foldl (λ m author, <[orcid author := author]> m) m l !! o = m !! o.
Proof.
  revert m. induction l as [|x l IH]; intros m Hl; [done|].
  cbn [foldl]. rewrite IH by (intros y Hy; apply Hl; by right).
  apply lookup_insert_ne, Hl. left.
Qed.

Lemma author_by_orcid_last l1 a l2 :
  (∀ x, x ∈ l2 → orcid x ≠ orcid a) →
  author_by_orcid (l1 ++ a :: l2) !! orcid a = Some a.
Proof.
  intros Hl2. unfold author_by_orcid. rewrite foldl_app. cbn [foldl].
  rewrite author_by_orcid_fold_other by done. apply lookup_insert_eq.
Qed.

Lemma elem_of_looked_up by_orcid links x :
  x ∈ looked_up by_orcid links ↔
  ∃ l, l ∈ links ∧ by_orcid !! author_orcid l = Some x.
Proof. unfold looked_up. apply list_elem_of_omap. Qed.

Lemma attach_authors_Ok articles author_list authorships fat_articles :
  attach_authors articles author_list authorships = Ok fat_articles →
  fat_articles =
  fat_article_of (authorships_by_doi authorships) (author_by_orcid author_list)
  <$> articles.
Proof.
  unfold attach_authors. by intros [_ ->]%attach_articles_Ok.
Qed.

(** X15.  Of several author records with the same orcid the last one is the
    one attached: after a successful call every attached author with that
    orcid is that last record. *)
Theorem attach_authors_last_record_wins
    articles l1 a l2 authorships fat_articles :
  (∀ x, x ∈ l2 → orcid x ≠ orcid a) →
  attach_authors articles (l1 ++ a :: l2) authorships = Ok fat_articles →
  ∀ fat x, fat ∈ fat_articles → x ∈ authors fat → orcid x = orcid a → x = a.
Proof.
  intros Hl2 ->%attach_authors_Ok fat x Hfat Hx Ho.
  apply list_elem_of_fmap in Hfat as (article & -> & _).
  cbn [authors fat_article_of] in Hx.
  apply elem_of_looked_up in Hx as (l & _ & Hl).
  pose proof (author_by_orcid_Some _ _ _ Hl) as [_ Hlo].
  rewrite <- Hlo, Ho, author_by_orcid_last in Hl by done. congruence.
Qed.

(** X15, witness: an old record of A before the current one. *)
Lemma attach_authors_last_record_wins_witness :
  (∀ x, x ∈ [author_B] → orcid x ≠ orcid author_A) ∧
  attach_authors [article_of "X"] ([author_A_old] ++ author_A :: [author_B])
    [link author_A "X"; link author_B "X"]
  = Ok [fat_of "X" [author_A; author_B]] ∧
  ∀ fat x, fat ∈ [fat_of "X" [author_A; author_B]] → x ∈ authors fat →
           orcid x = orcid author_A → x = author_A.
Proof.
  assert (H1 : ∀ x, x ∈ [author_B] → orcid x ≠ orcid author_A).
  { intros x ->%list_elem_of_singleton. discriminate. }
  assert (H2 : attach_authors [article_of "X"]
                 ([author_A_old] ++ author_A :: [author_B])
                 [link author_A "X"; link author_B "X"]
               = Ok [fat_of "X" [author_A; author_B]])
    by (vm_compute; reflexivity).
  split; [exact H1|]. split; [exact H2|].
  exact (attach_authors_last_record_wins _ _ _ _ _ _ H1 H2).
Defined.

Lemma attach_articles_by_doi_ext by_doi1 by_doi2 by_orcid articles acc :
  (∀ article, article ∈ articles →
     default [] (by_doi1 !! doi article) = default [] (by_doi2 !! doi article)) →
  attach_articles by_doi1 by_orcid articles acc =
  attach_articles by_doi2 by_orcid articles acc.
Proof.
  revert acc. induction articles as [|x articles IH]; intros acc H; [done|].
  cbn [attach_articles]. rewrite (H x) by left.
  destruct (attach_loop _ _ _) as [attached|e]; [|done].
  cbn [mbind result_bind]. apply IH. intros y Hy. apply H. by right.
Qed.

(** X16.  attach_authors reads the authorship links only through the links
    of each listed doi, in their order: links with a doi of no listed
    article, and the way links of different dois are interleaved, change
    neither the result nor the error. *)
Theorem attach_authors_per_doi articles author_list links1 links2 :
  (∀ article, article ∈ articles →
     filter (λ l, article_doi l = doi article) links1 =
     filter (λ l, article_doi l = doi article) links2) →
  attach_authors articles author_list links1 =
  attach_authors articles author_list links2.
Proof.
  intros H. unfold attach_authors. apply attach_articles_by_doi_ext.
  intros article Hart. rewrite !authorships_by_doi_lookup. by apply H.
Qed.

(** X16, witness: the chain links interleaved otherwise, with a link of an
    unlisted doi among them. *)
Lemma attach_authors_per_doi_witness :
  (∀ article, article ∈ chain_articles →
     filter (λ l, article_doi l = doi article) chain_links =
     filter (λ l, article_doi l = doi article)
       [link author_B "Y"; link author_A "X"; orphan_link;
        link author_C "Y"; link author_B "X"]) ∧
  attach_authors chain_articles four_authors chain_links =
  attach_authors chain_articles four_authors
    [link author_B "Y"; link author_A "X"; orphan_link;
     link author_C "Y"; link author_B "X"].
Proof.
  assert (H : ∀ article, article ∈ chain_articles →
     filter (λ l, article_doi l = doi article) chain_links =
     filter (λ l, article_doi l = doi article)
       [link author_B "Y"; link author_A "X"; orphan_link;
        link author_C "Y"; link author_B "X"]).
  { intros article Hart. unfold chain_articles in Hart.
    repeat (apply elem_of_cons in Hart as [->|Hart]);
      [vm_compute; reflexivity.. | by apply not_elem_of_nil in Hart]. }
  split; [exact H|].
  exact (attach_authors_per_doi chain_articles four_authors _ _ H).
Defined.

Lemma attach_loop_Raise_first by_orcid links attached e :
  attach_loop by_orcid links attached = Raise e →
  ∃ ls1 l ls2, links = ls1 ++ l :: ls2 ∧
    Forall (λ l, is_Some (by_orcid !! author_orcid l)) ls1 ∧
    by_orcid !! author_orcid l = None ∧ e = KeyError (author_orcid l).
Proof.
  revert attached. induction links as [|l links IH]; intros attached; [done|].
  cbn [attach_loop].
  destruct (by_orcid !! author_orcid l) as [a|] eqn:E.
  - intros (ls1 & l' & ls2 & -> & Hall & Hl')%IH.
    exists (l :: ls1), l', ls2. split; [done|]. split; [|done].
    constructor; [by eexists | done].
  - intros [= <-]. exists [], l, links. split; [done|]. split; [constructor|done].
Qed.

Lemma attach_articles_Raise_first by_doi by_orcid articles fat_articles e :
  attach_articles by_doi by_orcid articles fat_articles = Raise e →
  ∃ arts1 article arts2 ls1 l ls2,
    articles = arts1 ++ article :: arts2 ∧
    default [] (by_doi !! doi article) = ls1 ++ l :: ls2 ∧
    Forall (λ art, Forall (λ l, is_Some (by_orcid !! author_orcid l))
                          (default [] (by_doi !! doi art))) arts1 ∧
    Forall (λ l, is_Some (by_orcid !! author_orcid l)) ls1 ∧
    by_orcid !! author_orcid l = None ∧ e = KeyError (author_orcid l).
Proof.
  revert fat_articles. induction articles as [|x articles IH]; intros acc; [done|].
  cbn [attach_articles].
  destruct (attach_loop by_orcid _ []) as [attached|e'] eqn:E.
  - cbn [mbind result_bind].
    intros (arts1 & article & arts2 & ls1 & l & ls2 & -> & H)%IH.
    apply attach_loop_Ok in E as [Hall _].
    exists (x :: arts1), article, arts2, ls1, l, ls2.
    destruct H as (H1 & H2 & H3). split; [done|]. split; [done|].
    split; [by constructor | done].
  - cbn [mbind result_bind]. intros [= <-].
    apply attach_loop_Raise_first in E as (ls1 & l & ls2 & Hl & H).
    exists [], x, articles, ls1, l, ls2.
    split; [done|]. split; [done|]. split; [constructor | done].
Qed.

Lemma author_by_orcid_is_Some (author_list : list Author) l :
  is_Some (author_by_orcid author_list !! author_orcid l) →
  known_author author_list l.
Proof. intros [a Ha]. exists a. by apply author_by_orcid_Some. Qed.

(** X17.  The KeyError that attach_authors raises names the orcid of the
    first link without an author record, in the order of the loops: all
    links of the articles before that article, and the links of the article
    before that link, have an author record. *)
Theorem attach_authors_first_unknown articles author_list authorships e :
  attach_authors articles author_list authorships = Raise e →
  ∃ arts1 article arts2 ls1 l ls2,
    articles = arts1 ++ article :: arts2 ∧
    filter (λ l, article_doi l = doi article) authorships = ls1 ++ l :: ls2 ∧
    Forall (λ art, Forall (known_author author_list)
                     (filter (λ l, article_doi l = doi art) authorships))
           arts1 ∧
    Forall (known_author author_list) ls1 ∧
    unknown_author author_list l ∧
    e = KeyError (author_orcid l).
Proof.
  unfold attach_authors.
  intros (arts1 & article & arts2 & ls1 & l & ls2 & -> & Hls & H1 & H2 & H3 & ->)
    %attach_articles_Raise_first.
  exists arts1, article, arts2, ls1, l, ls2.
  rewrite authorships_by_doi_lookup in Hls. split_and!; [done..| | | |done].
  - eapply Forall_impl; [exact H1|]. intros art Hart. cbn in Hart.
    rewrite authorships_by_doi_lookup in Hart.
    eapply Forall_impl; [exact Hart|]. apply author_by_orcid_is_Some.
  - eapply Forall_impl; [exact H2|]. apply author_by_orcid_is_Some.
  - unfold unknown_author. by apply author_by_orcid_None.
Qed.

(** X17, witness: two links without a record; the one of the first article
    is reported. *)
Lemma attach_authors_first_unknown_witness :
  attach_authors chain_articles [author_A; author_C]
    [link author_D "Y"; link author_A "X"; link author_B "X"; link author_C "Y"]
  = Raise (KeyError (orcid author_B)) ∧
  ∃ arts1 article arts2 ls1 l ls2,
    chain_articles = arts1 ++ article :: arts2 ∧
    filter (λ l, article_doi l = doi article)
      [link author_D "Y"; link author_A "X"; link author_B "X";
       link author_C "Y"] = ls1 ++ l :: ls2 ∧
    Forall (λ art, Forall (known_author [author_A; author_C])
                     (filter (λ l, article_doi l = doi art)
                        [link author_D "Y"; link author_A "X";
                         link author_B "X"; link author_C "Y"]))
           arts1 ∧
    Forall (known_author [author_A; author_C]) ls1 ∧
    unknown_author [author_A; author_C] l ∧
    KeyError (orcid author_B) = KeyError (author_orcid l).
Proof.
  assert (H : attach_authors chain_articles [author_A; author_C]
    [link author_D "Y"; link author_A "X"; link author_B "X"; link author_C "Y"]
    = Raise (KeyError (orcid author_B))) by (vm_compute; reflexivity).
  split; [exact H|].
  exact (attach_authors_first_unknown _ _ _ _ H).
Defined.

(** X18.  A successful attach_authors returns one fat article per article,
    in order, with the article's doi, title and publication date, and every
    attached author is one of the given author records, unchanged. *)
Theorem attach_authors_output articles author_list authorships fat_articles :
  attach_authors articles author_list authorships = Ok fat_articles →
  Forall2 (λ article fat,
             fat_doi fat = doi article ∧ fat_title fat = title article ∧
             fat_publication_date fat = publication_date article ∧
             ∀ x, x ∈ authors fat → x ∈ author_list)
          articles fat_articles.
Proof.
  intros ->%attach_authors_Ok.
  apply Forall2_fmap_r, Forall_Forall2_diag, Forall_forall.
  intros article _. split_and!; [done..|].
  intros x (l & _ & Hl)%elem_of_looked_up.
  by apply author_by_orcid_Some in Hl as [? _].
Qed.

(** X18, witness: the chain example. *)
Lemma attach_authors_output_witness :
  attach_authors chain_articles four_authors chain_links = Ok chain_fat ∧
  Forall2 (λ article fat,
             fat_doi fat = doi article ∧ fat_title fat = title article ∧
             fat_publication_date fat = publication_date article ∧
             ∀ x, x ∈ authors fat → x ∈ four_authors)
          chain_articles chain_fat.
Proof.
  assert (H : attach_authors chain_articles four_authors chain_links
              = Ok chain_fat) by (vm_compute; reflexivity).
  split; [exact H|]. exact (attach_authors_output _ _ _ _ H).
Defined.

(** ** The DataFrame variants against the list variants *)

Lemma DataFrame_merge_cons l ls author_list :
  DataFrame.merge (l :: ls) author_list =
  ((λ a, (l, a)) <$> filter (λ a, orcid a = author_orcid l) author_list)
  ++ DataFrame.merge ls author_list.
Proof.
  unfold DataFrame.merge. rewrite bind_cons. f_equal.
Qed.

Lemma filter_orcid_unknown (author_list : list Author) o :
  o ∉ orcid <$> author_list →
  filter (λ a, orcid a = o) author_list = [].
Proof.
  intros Hno. destruct (filter _ author_list) as [|a rest] eqn:E; [done|].
  assert (Ha : a ∈ filter (λ a, orcid a = o) author_list) by (rewrite E; left).
  apply list_elem_of_filter in Ha as [Ho Ha]. exfalso. apply Hno.
  apply list_elem_of_fmap. by exists a.
Qed.

Lemma filter_same_key_unique {A B : Type} `{EqDecision B} (f : A → B)
    (l : list A) a :
  NoDup (f <$> l) → a ∈ l → filter (λ x, f x = f a) l = [a].
Proof.
  induction l as [|x l IH]; intros Hnd Ha; [by apply not_elem_of_nil in Ha|].
  rewrite fmap_cons in Hnd. apply NoDup_cons in Hnd as [Hx Hnd].
  rewrite filter_cons. apply elem_of_cons in Ha as [->|Ha].
  - rewrite decide_True by done. f_equal.
    destruct (filter _ l) as [|y k] eqn:E; [done|exfalso].
    assert (Hy : y ∈ filter (λ x0, f x0 = f x) l) by (rewrite E; left).
    apply list_elem_of_filter in Hy as [Hfy Hy]. apply Hx.
    rewrite <- Hfy. by apply list_elem_of_fmap_2.
  - rewrite decide_False; [by apply IH|].
    intros Hfx. apply Hx. rewrite Hfx. by apply list_elem_of_fmap_2.
Qed.

Lemma filter_orcid_lookup (author_list : list Author) o :
  NoDup (orcid <$> author_list) →
  filter (λ a, orcid a = o) author_list =
  match author_by_orcid author_list !! o with Some a => [a] | None => [] end.
Proof.
  intros Hnd. destruct (author_by_orcid author_list !! o) as [a|] eqn:E.
  - apply author_by_orcid_Some in E as [Ha <-].
    by apply filter_same_key_unique.
  - apply filter_orcid_unknown. intros (a & -> & Ha)%list_elem_of_fmap.
    by eapply author_by_orcid_None in E.
Qed.

Lemma DataFrame_merge_authors author_list authorships :
  NoDup (orcid <$> author_list) →
  (DataFrame.merge authorships author_list).*2 =
  looked_up (author_by_orcid author_list) authorships.
Proof.
  intros Hnd. induction authorships as [|l ls IH]; [done|].
  rewrite DataFrame_merge_cons, fmap_app, IH, filter_orcid_lookup by done.
  unfold looked_up. cbn [omap list_omap].
  by destruct (author_by_orcid author_list !! author_orcid l).
Qed.

Lemma DataFrame_merge_filter_doi author_list authorships d :
  filter (λ r, article_doi r.1 = d) (DataFrame.merge authorships author_list) =
  DataFrame.merge (filter (λ l, article_doi l = d) authorships) author_list.
Proof.
  induction authorships as [|l ls IH]; [done|].
  rewrite DataFrame_merge_cons, filter_app, IH, filter_cons.
  destruct (decide (article_doi l = d)) as [Hd|Hd].
  - rewrite DataFrame_merge_cons. f_equal.
    induction (filter (λ a, orcid a = author_orcid l) author_list)
      as [|a k IHk]; [done|].
    rewrite fmap_cons, filter_cons, decide_True by done. by rewrite IHk.
  - replace (filter (λ r : Authorship * Author, article_doi r.1 = d)
               ((λ a, (l, a)) <$>
                filter (λ a, orcid a = author_orcid l) author_list))
      with (@nil (Authorship * Author)); [done|].
    induction (filter (λ a, orcid a = author_orcid l) author_list)
      as [|a k IHk]; [done|].
    rewrite fmap_cons, filter_cons, decide_False by done. done.
Qed.

Lemma elem_of_DataFrame_merge author_list authorships r :
  r ∈ DataFrame.merge authorships author_list → r.1 ∈ authorships.
Proof.
  induction authorships as [|l ls IH]; [by intros ?%not_elem_of_nil|].
  rewrite DataFrame_merge_cons, elem_of_app.
  intros [(a & -> & _)%list_elem_of_fmap|H]; [left | right; by apply IH].
Qed.

(** The pairs appended for a list of authors. *)
Lemma pairs_of_article_authors d t p l :
  pairs_of_article {| fat_doi := d; fat_title := t; fat_publication_date := p;
                      authors := l |} = l ≫= pairs_of_author l.
Proof. reflexivity. Qed.

Lemma bind_subset_Permutation {A B : Type} (h : A → list B) (l1 l2 : list A) :
  NoDup l1 → NoDup l2 → (∀ x, x ∈ l2 → x ∈ l1) →
  (∀ x, x ∈ l1 → x ∉ l2 → h x = []) →
  l1 ≫= h ≡ₚ l2 ≫= h.
Proof.
  intros Hnd1 Hnd2 Hsub Hnil.
  destruct (submseteq_Permutation l2 l1) as [k Hk];
    [by apply NoDup_submseteq|].
  rewrite Hk, bind_app.
  assert (Hknil : k ≫= h = []).
  { rewrite Hk in Hnd1. apply NoDup_app in Hnd1 as (_ & Hdis & _).
    assert (Hall : ∀ x, x ∈ k → h x = []).
    { intros x Hx. apply Hnil.
      - rewrite Hk. apply elem_of_app. by right.
      - intros Hx2. by apply (Hdis x). }
    clear -Hall. induction k as [|x k IH]; [done|].
    rewrite bind_cons, (Hall x) by left. apply IH.
    intros y Hy. apply Hall. by right. }
  by rewrite Hknil, app_nil_r.
Qed.

(** X20.  Where the author records have distinct orcids, the articles have
    distinct dois and every link names a listed doi, the DataFrame variants
    build the very matrix (or raise the very error) the list variants build
    from the articles that attach_authors returns. *)
Theorem DataFrame_build_agrees articles author_list authorships fat_articles :
  NoDup (orcid <$> author_list) → NoDup (doi <$> articles) →
  (∀ l, l ∈ authorships → listed articles l) →
  attach_authors articles author_list authorships = Ok fat_articles →
  DataFrame.build_coauthorship_matrix author_list authorships =
  build_coauthorship_matrix fat_articles.
Proof.
  intros Hno Hnd Hlisted ->%attach_authors_Ok.
  rewrite DataFrame_build_as_fat_articles. symmetry.
  apply build_pairs_Permutation.
  set (by_orcid := author_by_orcid author_list).
  set (G := λ d : string,
         let l := looked_up by_orcid
                    (filter (λ l, article_doi l = d) authorships) in
         l ≫= pairs_of_author l).
  trans ((doi <$> articles) ≫= G).
  { unfold coauthor_pairs. rewrite list_fmap_bind, list_fmap_bind.
    match goal with |- ?X ≡ₚ ?Y => assert (X = Y) as ->; [|done] end.
    apply list_bind_ext; [|done]. intros article.
    unfold compose, G. cbn zeta. unfold fat_article_of.
    rewrite pairs_of_article_authors. by rewrite authorships_by_doi_lookup. }
  remember (doi <$> articles) as dois eqn:Edois.
  unfold fat_articles_of_frames, coauthor_pairs, DataFrame.groupby.
  rewrite !list_fmap_bind.
  set (rows := DataFrame.merge authorships author_list).
  set (keys := merge_sort _ _).
  assert (Hkeys : ∀ d, d ∈ keys ↔ ∃ r, r ∈ rows ∧ article_doi r.1 = d).
  { intros d. unfold keys. rewrite merge_sort_Permutation, elem_of_remove_dups.
    rewrite list_elem_of_fmap. split.
    - intros (r & -> & Hr). by exists r.
    - intros (r & Hr & <-). by exists r. }
  assert (HG : ∀ d, G d = (pairs_of_article ∘
      (λ group : string * list (Authorship * Author),
         {| fat_doi := group.1; fat_title := ""; fat_publication_date := 0;
            authors := group.2.*2 |}) ∘
      (λ key, (key, filter (λ r : Authorship * Author, article_doi r.1 = key)
                      rows))) d).
  { intros d. unfold compose, G. cbn zeta. rewrite pairs_of_article_authors.
    cbn [fst snd]. unfold rows.
    by rewrite DataFrame_merge_filter_doi, DataFrame_merge_authors. }
  trans (keys ≫= G).
  - apply bind_subset_Permutation.
    + by subst dois.
    + unfold keys. rewrite merge_sort_Permutation. apply NoDup_remove_dups.
    + intros d (r & Hr & <-)%Hkeys.
      apply elem_of_DataFrame_merge, Hlisted in Hr as (article & Hart & ->).
      subst dois. by apply list_elem_of_fmap_2.
    + intros d _ Hd. unfold G. cbn zeta.
      replace (looked_up by_orcid (filter (λ l, article_doi l = d) authorships))
        with (@nil Author); [done|].
      unfold by_orcid.
      rewrite <- DataFrame_merge_authors, <- DataFrame_merge_filter_doi by done.
      fold rows.
      destruct (filter _ rows) as [|r k] eqn:E; [done|exfalso].
      assert (Hr : r ∈ filter (λ r, article_doi r.1 = d) rows)
        by (rewrite E; left).
      apply list_elem_of_filter in Hr as [Hrd Hr]. apply Hd, Hkeys. eauto.
  - match goal with |- ?X ≡ₚ ?Y => assert (X = Y) as ->; [|done] end.
    apply list_bind_ext; [|done]. intros d. apply HG.
Qed.

Lemma chain_links_listed : ∀ l, l ∈ chain_links → listed chain_articles l.
Proof.
  intros l Hl. unfold chain_links in Hl.
  repeat (apply elem_of_cons in Hl as [->|Hl]);
    try (by apply not_elem_of_nil in Hl);
    first [ exists (article_of "X"); split; [left | reflexivity]
          | exists (article_of "Y"); split; [right; left | reflexivity] ].
Defined.

(** X20, witness: the chain example. *)
Lemma DataFrame_build_agrees_witness :
  NoDup (orcid <$> four_authors) ∧ NoDup (doi <$> chain_articles) ∧
  (∀ l, l ∈ chain_links → listed chain_articles l) ∧
  attach_authors chain_articles four_authors chain_links = Ok chain_fat ∧
  DataFrame.build_coauthorship_matrix four_authors chain_links =
  build_coauthorship_matrix chain_fat.
Proof.
  assert (H1 : NoDup (orcid <$> four_authors)).
  { apply (bool_decide_unpack _). vm_compute. exact I. }
  assert (H2 : NoDup (doi <$> chain_articles)).
  { apply (bool_decide_unpack _). vm_compute. exact I. }
  assert (H4 : attach_authors chain_articles four_authors chain_links
               = Ok chain_fat) by (vm_compute; reflexivity).
  split; [exact H1|]. split; [exact H2|]. split; [exact chain_links_listed|].
  split; [exact H4|].
  exact (DataFrame_build_agrees _ _ _ _ H1 H2 chain_links_listed H4).
Defined.

(** ** The builder: what the entries and the lists hold *)

(** X21.  Where an orcid belongs to one id, the entry (i, j) of the built
    matrix for two different ids within the shape is the number of joint
    articles of i and j (a duplicated authorship link counting again), as
    long as that number is at most 127. *)
Theorem entry_counts_joint_articles fat_articles coauthorship i j :
  orcid_determines_id fat_articles → i ≠ j →
  build_coauthorship_matrix fat_articles = Ok coauthorship →
  0 ≤ i < (shape coauthorship).1 → 0 ≤ j < (shape coauthorship).2 →
  joint_count fat_articles i j ≤ 127 →
  getitem coauthorship i j = Ok (joint_count fat_articles i j).
Proof.
  intros Hoi Hij Hb Hi Hj Hle.
  by apply (built_entry_joint_count _ _ _ _ Hoi Hij Hb Hi Hj).
Qed.

Lemma chain_fat_orcid_determines_id : orcid_determines_id chain_fat.
Proof.
  intros a c Ha Hc. cbn in Ha, Hc.
  repeat (apply elem_of_cons in Ha as [->|Ha]);
    repeat (apply elem_of_cons in Hc as [->|Hc]);
    try (by apply not_elem_of_nil in Ha); try (by apply not_elem_of_nil in Hc);
    try done; discriminate.
Defined.

(** X21, witness: A and B on the chain articles, with one joint article. *)
Lemma entry_counts_joint_articles_witness :
  orcid_determines_id chain_fat ∧ 0 ≠ 1 ∧
  build_coauthorship_matrix chain_fat = Ok chain_graph ∧
  0 ≤ 0 < (shape chain_graph).1 ∧ 0 ≤ 1 < (shape chain_graph).2 ∧
  joint_count chain_fat 0 1 ≤ 127 ∧
  getitem chain_graph 0 1 = Ok (joint_count chain_fat 0 1).
Proof.
  assert (Hne : 0 ≠ 1) by lia.
  assert (Hb : build_coauthorship_matrix chain_fat = Ok chain_graph)
    by (vm_compute; reflexivity).
  assert (Hi : 0 ≤ 0 < (shape chain_graph).1) by (cbn; lia).
  assert (Hj : 0 ≤ 1 < (shape chain_graph).2) by (cbn; lia).
  assert (Hle : joint_count chain_fat 0 1 ≤ 127) by (vm_compute; congruence).
  split; [exact chain_fat_orcid_determines_id|]. split; [exact Hne|].
  split; [exact Hb|]. split; [exact Hi|]. split; [exact Hj|]. split; [exact Hle|].
  exact (entry_counts_joint_articles chain_fat chain_graph 0 1
           chain_fat_orcid_determines_id Hne Hb Hi Hj Hle).
Defined.

Lemma length_bind_sum {A B : Type} (f : A → list B) (l : list A) :
  length (l ≫= f) = sum_list_with (λ x, length (f x)) l.
Proof.
  induction l as [|x l IH]; [done|].
  rewrite bind_cons, length_app, IH. done.
Qed.

Lemma sum_list_with_const {A : Type} (k : nat) (l : list A) :
  sum_list_with (λ _, k) l = (length l * k)%nat.
Proof. induction l as [|x l IH]; [done|]. cbn. rewrite IH. lia. Qed.

Lemma length_pairs_of_author l author :
  (length (pairs_of_author l author)
   + length (filter (λ c, orcid c = orcid author) l))%nat = length l.
Proof.
  induction l as [|c l IH]; [done|].
  rewrite pairs_of_author_cons, length_app, filter_cons.
  destruct (String.eqb (orcid author) (orcid c)) eqn:E.
  - apply String.eqb_eq in E. rewrite decide_True by done. cbn. lia.
  - apply String.eqb_neq in E. rewrite decide_False by done. cbn. lia.
Qed.

Lemma length_pairs_of_article article :
  NoDup (orcid <$> authors article) →
  length (pairs_of_article article) =
  (length (authors article) * (length (authors article) - 1))%nat.
Proof.
  intros Hnd. unfold pairs_of_article. rewrite length_bind_sum.
  rewrite (sum_list_with_ext_in _ (λ _, length (authors article) - 1)%nat).
  - apply sum_list_with_const.
  - intros x Hx. pose proof (length_pairs_of_author (authors article) x) as H.
    rewrite (filter_same_key_unique orcid) in H by done. cbn in H. lia.
Qed.

(** X22.  The three lists the loops fill stay parallel and every value
    appended is 1; where the authors of each article have distinct orcids,
    an article of n authors adds n * (n - 1) entries. *)
Theorem collect_pairs_lists fat_articles :
  let st := collect_pairs fat_articles in
  length (col_idx st) = length (row_idx st) ∧
  length (distance st) = length (row_idx st) ∧
  Forall (λ w, w = 1) (distance st) ∧
  ((∀ article, article ∈ fat_articles → NoDup (orcid <$> authors article)) →
   length (row_idx st) =
   sum_list_with (λ article, length (authors article)
                             * (length (authors article) - 1))%nat
                 fat_articles).
Proof.
  cbv zeta. rewrite collect_pairs_spec. cbn [row_idx col_idx distance].
  rewrite !length_fmap. split_and!; [done..| |].
  - apply Forall_fmap, Forall_forall. by intros.
  - intros Hnd. unfold coauthor_pairs. rewrite length_bind_sum.
    apply sum_list_with_ext_in. intros article Hart.
    by apply length_pairs_of_article, Hnd.
Qed.

(** ** The loaders of the TypedDict variant *)

Lemma project_spec {V : Type} keys (item acc : gmap string V) :
  match project keys item acc with
  | Ok out =>
      complete_item keys item ∧
      ∀ k, out !! k = if decide (k ∈ keys) then item !! k else acc !! k
  | Raise e =>
      ∃ ks1 k ks2, keys = ks1 ++ k :: ks2 ∧ complete_item ks1 item ∧
                   item !! k = None ∧ e = KeyError k
  end.
Proof.
  revert acc. induction keys as [|k0 ks IH]; intros acc.
  - cbn. split; [by intros k ?%not_elem_of_nil|].
    intros k. rewrite decide_False; [done | apply not_elem_of_nil].
  - cbn [project]. unfold TypedDict.dict_getitem.
    destruct (item !! k0) as [v|] eqn:E0; cbn [mbind result_bind].
    + specialize (IH (<[k0 := v]> acc)).
      destruct (project ks item (<[k0 := v]> acc)) as [out|e].
      * destruct IH as [Hc Hout]. split.
        -- intros k [->|Hk]%elem_of_cons; [by eexists | by apply Hc].
        -- intros k. rewrite Hout.
           destruct (decide (k = k0)) as [->|Hne].
           ++ rewrite (decide_True (P := k0 ∈ k0 :: ks)) by left.
              destruct (decide (k0 ∈ ks)); [done|].
              by rewrite lookup_insert_eq.
           ++ rewrite lookup_insert_ne by done.
              destruct (decide (k ∈ ks)) as [Hk|Hk].
              ** rewrite decide_True; [done | by right].
              ** rewrite decide_False; [done|].
                 by intros [?|?]%elem_of_cons.
      * destruct IH as (ks1 & k & ks2 & -> & Hc & Hk & ->).
        exists (k0 :: ks1), k, ks2. split_and!; [done| |done..].
        intros k' [->|Hk']%elem_of_cons; [by eexists | by apply Hc].
    + exists [], k0, ks. split_and!; [done| |done..].
      by intros k ?%not_elem_of_nil.
Qed.

Lemma comprehension_outcome {V : Type} keys
    (f : gmap string V → result (gmap string V)) data :
  (∀ item, f item = project keys item ∅) →
  loader_outcome keys data (TypedDict.comprehension V f data).
Proof.
  intros Hf. induction data as [|item rest IH].
  - left. exists []. by repeat constructor.
  - cbn [TypedDict.comprehension]. rewrite Hf.
    pose proof (project_spec keys item ∅) as Hp.
    destruct (project keys item ∅) as [o|e]; cbn [mbind result_bind].
    + destruct Hp as [Hc Ho].
      assert (Hr : restriction keys item o).
      { intros k. rewrite Ho. destruct (decide _); [done | apply lookup_empty]. }
      destruct IH as [(out & -> & Hall & Hout)
                     |(i1 & it & i2 & ks1 & k & ks2 & -> & Hk & H1 & H2 & H3 & ->)].
      * left. exists (o :: out). cbn [mbind result_bind].
        split_and!; [done | by constructor | by constructor].
      * right. exists (item :: i1), it, i2, ks1, k, ks2. cbn [mbind result_bind].
        split_and!; [done | done | by constructor | done..].
    + destruct Hp as (ks1 & k & ks2 & Hk & Hc & Hnone & ->).
      right. exists [], item, rest, ks1, k, ks2.
      split_and!; [done | done | constructor | done..].
Qed.

(** X23.  load_authors, on the decoded lines: either every item has the
    keys id, orcid, last_name and given_names, and the result lists, in
    order, each item cut down to these four keys; or a KeyError names the
    first missing key, in that order, of the first incomplete item. *)
Theorem load_authors_outcome (V : Type) (data : list (gmap string V)) :
  loader_outcome author_keys data (TypedDict.load_authors V data).
Proof. by apply comprehension_outcome. Qed.

(** X24.  load_articles, on the decoded lines: as load_authors, for the
    keys title, doi and publication_date, looked up in this order: an item
    without a title and without a doi is reported by its title. *)
Theorem load_articles_outcome (V : Type) (data : list (gmap string V)) :
  loader_outcome article_keys data (TypedDict.load_articles V data).
Proof. by apply comprehension_outcome. Qed.

(** X25.  load_authorship, on the decoded lines: as load_authors, for the
    keys author_orcid and article_doi. *)
Theorem load_authorship_outcome (V : Type) (data : list (gmap string V)) :
  loader_outcome authorship_keys data (TypedDict.load_authorship V data).
Proof. by apply comprehension_outcome. Qed.

Lemma restriction_complete {V : Type} keys (item o : gmap string V) :
  complete_item keys item → restriction keys item o →
  complete_item keys o ∧ restriction keys o o.
Proof.
  intros Hc Hr. split.
  - intros k Hk. rewrite Hr, decide_True by done. by apply Hc.
  - intros k. destruct (decide (k ∈ keys)); [done|].
    by rewrite Hr, decide_False.
Qed.

Lemma loader_idempotent {V : Type} keys
    (f : gmap string V → result (gmap string V)) data out :
  (∀ item, f item = project keys item ∅) →
  TypedDict.comprehension V f data = Ok out →
  TypedDict.comprehension V f out = Ok out.
Proof.
  intros Hf Hd.
  destruct (comprehension_outcome keys f data Hf)
    as [(out' & E & Hall & Hout)|(?&?&?&?&?&?&_&_&_&_&_&E)]; [|congruence].
  rewrite Hd in E. injection E as <-.
  assert (Hout2 : Forall (λ o, complete_item keys o ∧ restriction keys o o) out).
  { clear Hd. induction Hout as [|item o data out Hr _ IH]; [constructor|].
    apply Forall_cons in Hall as [Hc Hall]. constructor; [|by apply IH].
    by eapply restriction_complete. }
  clear -Hf Hout2.
  destruct (comprehension_outcome keys f out Hf)
    as [(out' & -> & _ & Hr)|(i1 & it & i2 & ks1 & k & ks2 & -> & -> & _ & _ & Hn & _)].
  - f_equal. clear Hf. induction Hr as [|o o' out out' Hoo _ IH]; [done|].
    apply Forall_cons in Hout2 as [[_ Hself] Hrest]. f_equal; [|by apply IH].
    apply map_eq. intros k. rewrite Hoo. symmetry. apply Hself.
  - exfalso. apply Forall_app in Hout2 as [_ Hit].
    apply Forall_cons in Hit as [[Hc _] _].
    destruct (Hc k) as [v Hv]; [|congruence].
    apply elem_of_app. right. left.
Qed.

(** X26.  The three loaders are idempotent: loading what a loader returned
    returns it unchanged. *)
Theorem loaders_idempotent (V : Type) (data out : list (gmap string V)) :
  (TypedDict.load_authors V data = Ok out →
   TypedDict.load_authors V out = Ok out) ∧
  (TypedDict.load_articles V data = Ok out →
   TypedDict.load_articles V out = Ok out) ∧
  (TypedDict.load_authorship V data = Ok out →
   TypedDict.load_authorship V out = Ok out).
Proof.
  split_and!.
  - by apply (loader_idempotent author_keys).
  - by apply (loader_idempotent article_keys).
  - by apply (loader_idempotent authorship_keys).
Qed.
